(** * pan-pingable-hosts: harvesting pingable addresses from an ARP cache

    A shallow embedding of [main.go]: the grouping of ARP entries by
    interface, [getPingableAddresses], [pingAddr], and the sorting and
    printing of the harvested addresses at the end of [main].

    The program talks to the network (ICMP probes) and to two output
    streams.  Both are modelled by explicit state passing: a [World]
    carries the state of the network, the log of the probes made so far,
    and what has been written to standard output and to standard error.
    A computation either returns, panics, or leaves the process through
    [os.Exit].

    The texts written by the program are given as they stand in the Go
    source, escape sequences included: there, [\n] is a newline. *)

From Stdlib Require Import ZArith String Ascii List PrimFloat.
From Stdlib Require Import Sorting.Sorted Sorting.Permutation.
From stdpp Require Import gmap strings list fin_maps sorting.

Local Open Scope string_scope.
Local Open Scope Z_scope.
Local Open Scope list_scope.

(** ** Data model *)

(** [type Interface struct { Name string; Address string }] *)
Record Interface := mkInterface { Name : string; Address : string }.

(** [type ArpCache struct { Entries []Interface }] *)
Record ArpCache := mkArpCache { Entries : list Interface }.

(** A [net.IP] is a byte slice; bytes are integers in [0, 255], and the
    [nil] slice is the empty list. *)
Definition IP := list Z.

(** The fields of [ping.Pinger] that [pingAddr] sets. *)
Record Pinger := mkPinger {
  pinger_addr : string;
  pinger_privileged : bool;
  pinger_Timeout : Z;
  pinger_Count : Z
}.

(** The one field of [ping.Statistics] that the program reads; it is a
    [float64]. *)
Record Statistics := mkStatistics { PacketLoss : float }.

(** ** Machine integers *)

(** A Go [int64], with its wrap-around. *)
Definition wrap64 (z : Z) : Z := (z + 2 ^ 63) mod 2 ^ 64 - 2 ^ 63.

(** [time.Millisecond], in nanoseconds. *)
Definition Millisecond : Z := 1000000.

(** ** The world, and computations over it *)

(** What a call of [pingAddr] led to.  [Replied] is a run that came to
    its end: its statistics tell whether an answer was received. *)
Inductive ProbeOutcome :=
| ResolveFailed                 (* ping.NewPinger returned an error *)
| RunFailed                     (* pinger.Run returned an error *)
| RunPanicked                   (* pinger.Run panicked *)
| Replied (stats : Statistics). (* pinger.Run returned nil; pinger.Statistics() *)

(** One entry of the probe log: the arguments of a call of [pingAddr] and
    its outcome. *)
Record Probe := mkProbe {
  probe_addr : string;
  probe_timeout : Z;
  probe_outcome : ProbeOutcome
}.

(** What is written to standard error. *)
Inductive Diag :=
| Plain (s : string)      (* fmt.Fprintf(os.Stderr, ...) *)
| Green (s : string)      (* green.Fprintf(os.Stderr, ...) *)
| Red (s : string)        (* red.Fprintf(os.Stderr, ...) *)
| PanicTrace              (* the report of an uncaught panic *)
| LogFatal (s : string)   (* log.Fatalf(...) *)
| Summary (n : nat).      (* the closing line, with the number of hosts *)

Record World (Net : Type) := mkWorld {
  net : Net;
  probes : list Probe;
  stdout : list string;   (* the lines printed by fmt.Println *)
  stderr : list Diag
}.
Arguments mkWorld {Net}.
Arguments net {Net}.
Arguments probes {Net}.
Arguments stdout {Net}.
Arguments stderr {Net}.

(** How a computation ends. *)
Inductive Res (A : Type) :=
| Ret (a : A)
| Panic
| Exit (code : Z).
Arguments Ret {A}.
Arguments Panic {A}.
Arguments Exit {A}.

(** The exit status of the process: 0 after a normal return of [main], 2
    after an uncaught panic, and the argument of [os.Exit] otherwise. *)
Definition exit_status {A} (r : Res A) : Z :=
  match r with
  | Ret _ => 0
  | Panic => 2
  | Exit code => code
  end.

Definition M (Net A : Type) : Type := World Net -> Res A * World Net.

Definition ret {Net A} (a : A) : M Net A := fun w => (Ret a, w).

Definition bind {Net A B} (m : M Net A) (k : A -> M Net B) : M Net B :=
  fun w =>
    match m w with
    | (Ret a, w') => k a w'
    | (Panic, w') => (Panic, w')
    | (Exit code, w') => (Exit code, w')
    end.

Declare Scope go_scope.
Delimit Scope go_scope with go.
Notation "x <- m ;; k" := (bind m (fun x => k))
  (at level 100, m at next level, right associativity) : go_scope.
Notation "m ;; k" := (bind m (fun _ => k))
  (at level 100, right associativity) : go_scope.
Local Open Scope go_scope.

Definition log_probe {Net} (p : Probe) : M Net unit :=
  fun w => (Ret tt, mkWorld (net w) (probes w ++ [p]) (stdout w) (stderr w)).

Definition Println {Net} (line : string) : M Net unit :=
  fun w => (Ret tt, mkWorld (net w) (probes w) (stdout w ++ [line]) (stderr w)).

Definition Eprint {Net} (d : Diag) : M Net unit :=
  fun w => (Ret tt, mkWorld (net w) (probes w) (stdout w) (stderr w ++ [d])).

(** [panic(err)], never recovered in this program. *)
Definition panic {Net A} : M Net A :=
  fun w => (Panic, mkWorld (net w) (probes w) (stdout w) (stderr w ++ [PanicTrace])).

(** [log.Fatalf(msg)]: the message goes to standard error, then
    [os.Exit(1)]. *)
Definition Fatalf {Net A} (msg : string) : M Net A :=
  fun w => (Exit 1, mkWorld (net w) (probes w) (stdout w) (stderr w ++ [LogFatal msg])).

(** ** The libraries the program calls *)

(** How a call of [pinger.Run] ends: it returns nil, it returns an error,
    or it panics, as go-ping does in [time.NewTicker] when the timeout of
    the pinger is not positive. *)
Inductive RunResult :=
| RunOk
| RunError
| RunPanic.

(** [github.com/go-ping/ping]: whether an address resolves, whether a run
    succeeds and what its statistics are depends on the network, whose
    state the calls may change. *)
Class PingLib (Net : Type) := {
  (* ping.NewPinger(addr): [true] when err == nil *)
  NewPinger : string -> Net -> bool * Net;
  (* pinger.Run() *)
  Run : Pinger -> Net -> RunResult * Net;
  (* pinger.Statistics() *)
  GetStatistics : Pinger -> Net -> Statistics
}.

(** [net.ParseIP] and [IP.String]. *)
Class NetLib := {
  ParseIP : string -> IP;
  IP_String : IP -> string
}.

(** [strings.HasPrefix(s, prefix)] *)
Definition HasPrefix (s pre : string) : bool := String.prefix pre s.

(** [bytes.Compare(a, b)]: -1, 0 or +1, lexicographically; a [nil] slice is
    an empty slice. *)
Fixpoint bytes_Compare (a b : list Z) : Z :=
  match a, b with
  | [], [] => 0
  | [], _ :: _ => -1
  | _ :: _, [] => 1
  | x :: a', y :: b' =>
      if x <? y then -1
      else if y <? x then 1
      else bytes_Compare a' b'
  end.

(** ** pingAddr and getPingableAddresses *)

Section Harvest.
Context {Net : Type} `{PingLib Net}.

Definition call_NewPinger (addr : string) : M Net bool :=
  fun w => let '(ok, n) := NewPinger addr (net w) in
           (Ret ok, mkWorld n (probes w) (stdout w) (stderr w)).

Definition call_Run (p : Pinger) : M Net RunResult :=
  fun w => let '(r, n) := Run p (net w) in
           (Ret r, mkWorld n (probes w) (stdout w) (stderr w)).

Definition call_Statistics (p : Pinger) : M Net Statistics :=
  fun w => (Ret (GetStatistics p (net w)), w).

(** [func pingAddr(addr string, timeout int) *ping.Statistics].  A panic
    of [pinger.Run] is not recovered: it ends the process as the panic of
    [pingAddr] itself does. *)
Definition pingAddr (addr : string) (timeout : Z) : M Net Statistics :=
  ok <- call_NewPinger addr ;;
  if negb ok then
    log_probe (mkProbe addr timeout ResolveFailed) ;; panic
  else
    let pinger := mkPinger addr true (wrap64 (wrap64 timeout * Millisecond)) 1 in
    err <- call_Run pinger ;;
    match err with
    | RunPanic =>
        log_probe (mkProbe addr timeout RunPanicked) ;; panic
    | RunError =>
        log_probe (mkProbe addr timeout RunFailed) ;;
        Fatalf "ICMP socket operations require 'sudo'\n"
    | RunOk =>
        stats <- call_Statistics pinger ;;
        log_probe (mkProbe addr timeout (Replied stats)) ;;
        ret stats
    end.

(** The loop of [getPingableAddresses]: [addrs] is what is left of the
    range, [pingableAddrs] the slice built so far. *)
Fixpoint harvest_loop (numAddrs timeout : Z) (addrs pingableAddrs : list string)
  : M Net (list string) :=
  match addrs with
  | [] => ret pingableAddrs
  | addr :: rest =>
      if HasPrefix addr "0" then
        harvest_loop numAddrs timeout rest pingableAddrs
      else
        stats <- pingAddr addr timeout ;;
        let pingableAddrs :=
          if (PacketLoss stats =? 0)%float then pingableAddrs ++ [addr]
          else pingableAddrs in
        if Z.of_nat (length pingableAddrs) =? numAddrs then
          ret pingableAddrs
        else
          harvest_loop numAddrs timeout rest pingableAddrs
  end.

(** [func getPingableAddresses(addrs []string, numAddrs int, timeout int) []string] *)
Definition getPingableAddresses (addrs : list string) (numAddrs timeout : Z)
  : M Net (list string) :=
  harvest_loop numAddrs timeout addrs [].

End Harvest.

(** ** The end of main: grouping, harvesting, sorting, printing *)

(** Lines 99-102: the map from interface name to the addresses seen on it.
    Reading a key that is absent gives the nil slice. *)
Definition build_interfaces (entries : list Interface) : gmap string (list string) :=
  fold_left
    (fun interfaces int =>
       <[Name int := default [] (interfaces !! Name int) ++ [Address int]]> interfaces)
    entries ∅.

(** The order that the closure given to [sort.Slice] decides:
    [bytes.Compare(a, b) < 0]. *)
Definition ip_less (a b : IP) : bool := bytes_Compare a b <? 0.

(** Its reflexive closure, [bytes.Compare(a, b) <= 0]. *)
Definition ip_le (a b : IP) : Prop := bytes_Compare a b ≤ 0.

#[global] Instance ip_le_dec (a b : IP) : Decision (ip_le a b).
Proof. unfold ip_le. apply _. Defined.

(** [sort.Slice(s, less)] sorts [s] by [less]: in the result no element
    is less than one before it.  It is not a stable sort, so in general
    only the result up to the order of the elements that [less] does not
    tell apart is known; with the closure of [main], two addresses that
    compare equal have the same bytes, so there is one sorted arrangement
    only (see [sort_Slice_unique]) and any sorting function computes it. *)
Definition sort_Slice {A} (less : A -> A -> bool) (s : list A) : list A :=
  @merge_sort A (fun a b => less b a = false)
    (fun a b => bool_eq_dec (less b a) false) s.

Section Main.
Context {Net : Type} `{PingLib Net} `{NetLib}.

(** Lines 107-110.  [groups] are the entries of the map in the order in
    which [range] visits them. *)
Fixpoint harvest_all (numAddresses timeout : Z)
    (groups : list (string * list string)) (pingableHosts : list string)
  : M Net (list string) :=
  match groups with
  | [] => ret pingableHosts
  | (_, addrs) :: rest =>
      found <- getPingableAddresses addrs numAddresses timeout ;;
      harvest_all numAddresses timeout rest (pingableHosts ++ found)
  end.

(** Lines 114-120. *)
Definition sort_hosts (pingableHosts : list string) : list IP :=
  sort_Slice ip_less (map ParseIP pingableHosts).

(** Lines 123-125. *)
Fixpoint print_results (pingableHostsSorted : list IP) : M Net unit :=
  match pingableHostsSorted with
  | [] => ret tt
  | addr :: rest => Println (IP_String addr) ;; print_results rest
  end.

(** [main], from line 97 on: the ARP cache has been downloaded and
    decoded.  Go does not fix the order in which [range] visits a map;
    [range_order] gives that order, which is some arrangement of the
    entries of the map.  The elapsed time of the closing line is left
    out. *)
Definition main (range_order : gmap string (list string) -> list (string * list string))
    (arpCache : ArpCache) (numAddresses timeout : Z) : M Net unit :=
  Eprint (Plain "Parsing ARP cache ... ") ;;
  let interfaces := build_interfaces (Entries arpCache) in
  Eprint (Green "success\n") ;;
  Eprint (Plain "Pinging IP addresses ... ") ;;
  pingableHosts <- harvest_all numAddresses timeout (range_order interfaces) [] ;;
  Eprint (Green "success\n\n") ;;
  let pingableHostsSorted := sort_hosts pingableHosts in
  print_results pingableHostsSorted ;;
  Eprint (Plain "\n") ;;
  Eprint (Summary (length pingableHosts)).

End Main.

(** A [range_order] is admissible when it lists the entries of the map,
    each once. *)
Definition admissible (range_order : gmap string (list string) -> list (string * list string))
  : Prop :=
  ∀ m, range_order m ≡ₚ map_to_list m.

(** ** The parts of Go's [net] package that the program reaches

    These follow the standard library and are used to run the program on
    dotted-decimal addresses.  The parser and the printer of the IPv6
    notation are left as parameters. *)
Module GoNet.

Definition byte_of (c : ascii) : Z := Z.of_N (N_of_ascii c).

Definition big : Z := 16777215. (* 0xFFFFFF *)

(** [dtoi(s) (n, i, ok)]: the decimal number at the start of [s] and the
    number of its digits. *)
Fixpoint dtoi_from (s : string) (n i : Z) : Z * Z * bool :=
  match s with
  | String c s' =>
      if (48 <=? byte_of c) && (byte_of c <=? 57) then
        let n := n * 10 + (byte_of c - 48) in
        if big <=? n then (big, i, false)
        else dtoi_from s' n (i + 1)
      else if i =? 0 then (0, 0, false) else (n, i, true)
  | EmptyString => if i =? 0 then (0, 0, false) else (n, i, true)
  end.

Definition dtoi (s : string) : Z * Z * bool := dtoi_from s 0 0.

(** [s[c:]] *)
Fixpoint string_drop (c : nat) (s : string) : string :=
  match c, s with
  | O, _ => s
  | S c', String _ s' => string_drop c' s'
  | S _, EmptyString => EmptyString
  end.

(** The loop of [parseIPv4]: [todo] octets are still to be read, [first]
    tells whether this is the octet of index 0, [p] are the octets read.
    [None] is the nil result. *)
Fixpoint parseIPv4_loop (todo : nat) (first : bool) (s : string) (p : list Z)
  : option (string * list Z) :=
  match todo with
  | O => Some (s, p)
  | S todo' =>
      match s with
      | EmptyString => None
      | String c0 s1 =>
          let after_dot :=
            if first then Some s
            else if Ascii.eqb c0 "."%char then Some s1 else None in
          match after_dot with
          | None => None
          | Some s =>
              let '(n, c, ok) := dtoi s in
              if negb ok || (255 <? n) then None
              else if (1 <? c) && String.prefix "0" s then None
              else parseIPv4_loop todo' false (string_drop (Z.to_nat c) s) (p ++ [n mod 256])
          end
      end
  end.

Definition v4InV6Prefix : list Z := [0; 0; 0; 0; 0; 0; 0; 0; 0; 0; 255; 255].

(** [parseIPv4(s)]; the result of [IPv4(a, b, c, d)] has 16 bytes. *)
Definition parseIPv4 (s : string) : IP :=
  match parseIPv4_loop 4 true s [] with
  | Some (EmptyString, p) => v4InV6Prefix ++ p
  | _ => []
  end.

Section WithIPv6.
Variable parseIPv6 : string -> IP.
Variable ipv6String : IP -> string.

(** [net.ParseIP(s)]: the first '.' or ':' decides the notation. *)
Fixpoint ParseIP_scan (s rest : string) : IP :=
  match rest with
  | EmptyString => []
  | String c rest' =>
      if Ascii.eqb c "."%char then parseIPv4 s
      else if Ascii.eqb c ":"%char then parseIPv6 s
      else ParseIP_scan s rest'
  end.

Definition ParseIP (s : string) : IP := ParseIP_scan s s.

(** [ip.To4()] *)
Definition To4 (ip : IP) : IP :=
  if (length ip =? 4)%nat then ip
  else if (length ip =? 16)%nat
          && forallb (Z.eqb 0) (take 10 ip)
          && (nth 10 ip 0 =? 255) && (nth 11 ip 0 =? 255)
       then drop 12 ip
       else [].

Definition digit (v : Z) : string := String (ascii_of_N (Z.to_N (v + 48))) EmptyString.

(** [ubtoa]: a byte in decimal. *)
Definition ubtoa (v : Z) : string :=
  if v <? 10 then digit v
  else if v <? 100 then (digit (v / 10) ++ digit (v mod 10))%string
  else (digit (v / 100) ++ digit ((v / 10) mod 10) ++ digit (v mod 10))%string.

(** [ip.String()] *)
Definition IP_String (ip : IP) : string :=
  if (length ip =? 0)%nat then "<nil>"
  else
    let p4 := To4 ip in
    if (length p4 =? 4)%nat then
      (ubtoa (nth 0 p4 0) ++ "." ++ ubtoa (nth 1 p4 0) ++ "." ++
       ubtoa (nth 2 p4 0) ++ "." ++ ubtoa (nth 3 p4 0))%string
    else ipv6String ip.

Definition lib : NetLib := Build_NetLib ParseIP IP_String.
End WithIPv6.

(** For runs on addresses without ':', where the IPv6 notation is never
    reached. *)
Definition lib4 : NetLib := lib (fun _ => []) (fun _ => "?").

End GoNet.

(** ** A network for running the program

    The network of a test: the addresses that answer, and whether raw
    sockets may be opened.  Every name resolves but those listed in
    [unknown].  A run fails when raw sockets may not be opened; otherwise
    it panics when the timeout of the pinger is not positive, as go-ping
    does, and comes to its end when it is. *)
Module Stub.

Record Net := mkNet { up : list string; unknown : list string; privileged : bool }.

Definition mem (a : string) (l : list string) : bool := bool_decide (a ∈ l).

#[global] Instance lib : PingLib Net := {|
  NewPinger addr n := (negb (mem addr (unknown n)), n);
  Run p n :=
    (if privileged n
     then if pinger_Timeout p <=? 0 then RunPanic else RunOk
     else RunError, n);
  GetStatistics p n :=
    mkStatistics (if mem (pinger_addr p) (up n) then 0%float else 100%float)
|}.

Definition start (n : Net) : World Net := mkWorld n [] [] [].

End Stub.

(** ** Reading the probe log *)

(** A candidate that the harvest skips: its text starts with '0'. *)
Definition placeholder (a : string) : Prop := HasPrefix a "0" = true.

#[global] Instance placeholder_dec a : Decision (placeholder a).
Proof. unfold placeholder. apply _. Defined.

(** The candidates of a list that are not placeholders, in order. *)
Definition candidates (addrs : list string) : list string :=
  filter (fun a => ¬ placeholder a) addrs.

(** A probe that came to its end: the pinger was set up and its run
    returned without an error.  Whether an answer was received is another
    matter ([reachable]). *)
Definition completed (p : Probe) : Prop :=
  match probe_outcome p with Replied _ => True | _ => False end.

(** A probe found its address reachable: it was answered, with no loss. *)
Definition reachable (p : Probe) : Prop :=
  match probe_outcome p with
  | Replied stats => (PacketLoss stats =? 0)%float = true
  | _ => False
  end.

#[global] Instance reachable_dec p : Decision (reachable p).
Proof. unfold reachable. destruct (probe_outcome p); apply _. Defined.

(** The addresses that a sequence of probes found reachable. *)
Definition reachable_addrs (ps : list Probe) : list string :=
  probe_addr <$> filter reachable ps.

(** A sequence of probes that ends the process: all came to their end but
    the last, whose outcome is [o]. *)
Definition ends_with (o : ProbeOutcome) (ps : list Probe) : Prop :=
  ∃ ps0 p, ps = ps0 ++ [p] ∧ Forall completed ps0 ∧ probe_outcome p = o.

Definition fatal_msg : string := "ICMP socket operations require 'sudo'\n".

(** How [pingAddr] ends, and what it writes to standard error, by the
    outcome of the probe. *)
Definition probe_res (o : ProbeOutcome) : Res Statistics :=
  match o with
  | ResolveFailed => Panic
  | RunFailed => Exit 1
  | RunPanicked => Panic
  | Replied stats => Ret stats
  end.

Definition probe_diag (o : ProbeOutcome) : list Diag :=
  match o with
  | ResolveFailed => [PanicTrace]
  | RunFailed => [LogFatal fatal_msg]
  | RunPanicked => [PanicTrace]
  | Replied _ => []
  end.

(** What the loop of [getPingableAddresses] leaves behind, started with
    [acc] on the candidates [addrs] in the world [w]. *)
Definition harvest_post {Net} (numAddrs timeout : Z)
    (addrs acc : list string) (w : World Net)
    (r : Res (list string)) (w' : World Net) : Prop :=
  ∃ ps,
    probes w' = probes w ++ ps ∧
    stdout w' = stdout w ∧
    probe_addr <$> ps `prefix_of` candidates addrs ∧
    Forall (fun p => probe_timeout p = timeout) ps ∧
    match r with
    | Ret res =>
        Forall completed ps ∧ stderr w' = stderr w ∧
        res = acc ++ reachable_addrs ps ∧
        (Z.of_nat (length res) = numAddrs ∨ probe_addr <$> ps = candidates addrs)
    | Exit code =>
        code = 1 ∧ ends_with RunFailed ps ∧
        stderr w' = stderr w ++ [LogFatal fatal_msg]
    | Panic =>
        (ends_with ResolveFailed ps ∨ ends_with RunPanicked ps) ∧
        stderr w' = stderr w ++ [PanicTrace]
    end.


(** ** Reading a run of main *)

(** The harvests of [harvest_all] one by one: the result of
    [getPingableAddresses] for each interface, in the order of the visit.
    [harvest_all] returns their concatenation ([harvest_all_each]). *)
Fixpoint harvest_each {Net} `{PingLib Net} (numAddresses timeout : Z)
    (groups : list (string * list string)) : M Net (list (list string)) :=
  match groups with
  | [] => ret []
  | (_, addrs) :: rest =>
      found <- getPingableAddresses addrs numAddresses timeout ;;
      founds <- harvest_each numAddresses timeout rest ;;
      ret (found :: founds)
  end.

(** The world in which the harvest of [main] starts: three messages have
    gone to standard error. *)
Definition before_harvest {Net} (w : World Net) : World Net :=
  mkWorld (net w) (probes w) (stdout w)
    (stderr w ++ [Plain "Parsing ARP cache ... "; Green "success\n";
                  Plain "Pinging IP addresses ... "]).

(** What is written to standard error after a harvest of [n] hosts. *)
Definition after_harvest (n : nat) : list Diag :=
  [Green "success\n\n"; Plain "\n"; Summary n].

(** [found] is what some harvest of the addresses of the group [g]
    returned, under the quota and timeout given. *)
Definition harvested {Net} `{PingLib Net} (numAddresses timeout : Z)
    (g : string * list string) (found : list string) : Prop :=
  ∃ w1 w2 : World Net,
    getPingableAddresses g.2 numAddresses timeout w1 = (Ret found, w2).

(** The addresses of the entries of an interface, in the order of the
    entries. *)
Definition addresses_of (name : string) (entries : list Interface) : list string :=
  Address <$> filter (fun int => Name int = name) entries.

(** A run that ended otherwise than by returning, at another type. *)
Definition carry {A B} (r : Res A) (b : B) : Res B :=
  match r with
  | Ret _ => Ret b
  | Panic => Panic
  | Exit code => Exit code
  end.

(** ** Libraries without a memory *)

(** A ping library is stateless when setting up and running a pinger
    leave the network as it was: what a probe finds does not depend on
    the probes made before it. *)
Definition stateless {Net} (L : PingLib Net) : Prop :=
  (∀ addr n, (NewPinger addr n).2 = n) ∧ (∀ p n, (Run p n).2 = n).

(** The results of a sequence of runs as one: the values returned when
    all returned, and otherwise the way the first that did not return
    ended. *)
Fixpoint collect {A} (rs : list (Res A)) : Res (list A) :=
  match rs with
  | [] => Ret []
  | Ret a :: rs' =>
      match collect rs' with
      | Ret l => Ret (a :: l)
      | Panic => Panic
      | Exit code => Exit code
      end
  | Panic :: _ => Panic
  | Exit code :: _ => Exit code
  end.

(** ** A library that keeps a record of the pingers it runs

    The network of [recording L] is a network of [L] with the list of the
    pingers handed to [Run] so far; apart from the record it behaves as
    [L] does. *)
Definition recording {Net} (L : PingLib Net) : PingLib (Net * list Pinger) := {|
  NewPinger addr n := let '(ok, n') := NewPinger addr n.1 in (ok, (n', n.2));
  Run p n := let '(ok, n') := Run p n.1 in (ok, (n', n.2 ++ [p]));
  GetStatistics p n := GetStatistics p n.1
|}.

(** ** The start of main: arguments, credentials, download *)

(** The [http.Client] of [getArpCache]: what is set of its TLS
    configuration. *)
Record Client := mkClient { InsecureSkipVerify : bool }.

(** The [http.Request] that [getArpCache] builds: its method, its URL, the
    header fields set, and the pairs added to the query of the URL. *)
Record Request := mkRequest {
  req_method : string;
  req_url : string;
  req_header : list (string * string);
  req_query : list (string * string)
}.

(** The fields of an [http.Response] that [getArpCache] reads. *)
Record Response := mkResponse { StatusCode : Z; Status : string }.

(** The command line after [flag.Parse]: the values of [-u], [-n] and
    [-t], and the arguments that are no flags. *)
Record Flags := mkFlags {
  flag_u : string;
  flag_n : Z;
  flag_t : Z;
  flag_args : list string
}.

(** The terminal, the HTTP client and the decoders that the start of
    [main] and [getArpCache] call.  The calls that read from the terminal
    or talk to the firewall depend on the state of the network and may
    change it; [None] and [false] stand for a call that returned an
    error. *)
Class HostLib (Net : Type) := {
  (* fmt.Scanln(&user): what user holds afterwards *)
  Scanln : Net -> string * Net;
  (* term.ReadPassword(int(syscall.Stdin)) *)
  ReadPassword : Net -> option string * Net;
  (* http.NewRequest(method, url, nil): [true] when err == nil *)
  NewRequest : string -> string -> bool;
  (* base64.StdEncoding.EncodeToString *)
  EncodeToString : string -> string;
  (* client.Do(req) *)
  Do : Client -> Request -> Net -> option Response * Net;
  (* io.ReadAll(resp.Body) *)
  ReadAll : Response -> Net -> option string * Net;
  (* resp.Body.Close() *)
  Close : Response -> Net -> Net;
  (* xml.Unmarshal([]byte(data), &arpCache) *)
  Unmarshal : string -> option ArpCache;
  (* the text written by flag.PrintDefaults() *)
  PrintDefaults : string
}.

(** [os.Exit(code)] *)
Definition os_Exit {Net A} (code : Z) : M Net A := fun w => (Exit code, w).

Section Start.
Context {Net : Type} `{PingLib Net} `{NetLib} `{HostLib Net}.

Definition call_Scanln : M Net string :=
  fun w => let '(user, n) := Scanln (net w) in
           (Ret user, mkWorld n (probes w) (stdout w) (stderr w)).

Definition call_ReadPassword : M Net (option string) :=
  fun w => let '(r, n) := ReadPassword (net w) in
           (Ret r, mkWorld n (probes w) (stdout w) (stderr w)).

Definition call_Do (client : Client) (req : Request) : M Net (option Response) :=
  fun w => let '(r, n) := Do client req (net w) in
           (Ret r, mkWorld n (probes w) (stdout w) (stderr w)).

Definition call_ReadAll (resp : Response) : M Net (option string) :=
  fun w => let '(r, n) := ReadAll resp (net w) in
           (Ret r, mkWorld n (probes w) (stdout w) (stderr w)).

Definition call_Close (resp : Response) : M Net unit :=
  fun w => (Ret tt, mkWorld (Close resp (net w)) (probes w) (stdout w) (stderr w)).

(** [func getArpCache(fw string, user string, pw string) string].  The
    deferred [resp.Body.Close()] runs when the function returns and when it
    panics after the response was received, before the panic is
    reported. *)
Definition getArpCache (fw user pw : string) : M Net string :=
  let client := mkClient true in
  let url := ("https://" ++ fw ++ "/api/")%string in
  if negb (NewRequest "GET" url) then
    Eprint (Red "fail\n\n") ;; panic
  else
    let creds := (user ++ ":" ++ pw)%string in
    let credsEnc := EncodeToString creds in
    let req :=
      mkRequest "GET" url
        [("Authorization", ("Basic " ++ credsEnc)%string)]
        [("type", "op"); ("cmd", "<show><arp><entry name = 'all'/></arp></show>")] in
    resp <- call_Do client req ;;
    match resp with
    | None => Eprint (Red "fail\n\n") ;; panic
    | Some resp =>
        if negb (StatusCode resp =? 200) then
          Eprint (Red "fail\n\n") ;; Fatalf (Status resp)
        else
          respBody <- call_ReadAll resp ;;
          match respBody with
          | None => Eprint (Red "fail\n\n") ;; call_Close resp ;; panic
          | Some respBody => call_Close resp ;; ret respBody
          end
    end.

(** [flag.Usage], for a program started as [argv0]. *)
Definition Usage (argv0 : string) : M Net unit :=
  Eprint (Plain ("Usage of " ++ argv0 ++ ":\n\n")%string) ;;
  Eprint (Plain "Harvests pingable IP addresses from a Palo Alto Networks firewall ARP cache\n\n") ;;
  Eprint (Plain "USAGE: pan-pingable-hosts [options] <firewall>\n\n") ;;
  Eprint (Plain "EXAMPLES:\n") ;;
  Eprint (Plain "  > pan-pingable-hosts fw01.domain.com\n") ;;
  Eprint (Plain "  > pan-pingable-hosts -u user panwfw01.corp.com\n") ;;
  Eprint (Plain "  > pan-pingable-hosts -u user -n 4 panwfw01.corp.com\n\n") ;;
  Eprint (Plain "OPTIONS:\n") ;;
  Eprint (Plain PrintDefaults).

(** [main] as a whole, after [flag.Parse] has read the command line into
    [fl]: lines 64-95, then the part that [main] above models. *)
Definition main_whole
    (range_order : gmap string (list string) -> list (string * list string))
    (argv0 : string) (fl : Flags) : M Net unit :=
  match flag_args fl with
  | [firewall] =>
      Eprint (Plain "\n") ;;
      user <- (if String.eqb (flag_u fl) "" then
                 Eprint (Plain "PAN User: ") ;; call_Scanln
               else ret (flag_u fl)) ;;
      Eprint (Plain ("Password (" ++ user ++ "): ")%string) ;;
      bytepw <- call_ReadPassword ;;
      match bytepw with
      | None => panic
      | Some password =>
          Eprint (Plain "\n\n") ;;
          Eprint (Plain ("Downloading ARP cache from " ++ firewall ++ " ... ")%string) ;;
          data <- getArpCache firewall user password ;;
          match Unmarshal data with
          | None => Eprint (Red "fail\n\n") ;; panic
          | Some arpCache =>
              Eprint (Green "success\n") ;;
              main range_order arpCache (flag_n fl) (flag_t fl)
          end
      end
  | _ => Usage argv0 ;; os_Exit 1
  end.


End Start.


(** ** A terminal and a firewall for running the program

    The stand-ins of a test: what is typed at the prompts, what the
    firewall answers and with what body, over a network of [Stub].  Every
    body decodes to the ARP cache [cache], if there is one. *)
Module HostStub.

Record Net := mkNet {
  icmp : Stub.Net;
  typed_user : string;
  typed_password : option string;
  reply : option Response;
  body : option string
}.

#[global] Instance ping : PingLib Net := {|
  NewPinger addr n := ((NewPinger addr (icmp n)).1, n);
  Run p n := ((Run p (icmp n)).1, n);
  GetStatistics p n := GetStatistics p (icmp n)
|}.

Definition host (cache : option ArpCache) : HostLib Net := {|
  Scanln n := (typed_user n, n);
  ReadPassword n := (typed_password n, n);
  NewRequest _ _ := true;
  EncodeToString creds := creds;
  Do _ _ n := (reply n, n);
  ReadAll _ n := (body n, n);
  Close _ n := n;
  Unmarshal _ := cache;
  PrintDefaults := "  -n int\n"
|}.

Definition start (n : Net) : World Net := mkWorld n [] [] [].

End HostStub.

(** ** The earlier version of the program

    The second [main.go] of the repository: no [-t] flag, a timeout of 50
    milliseconds written into [pingAddr], and no reports of progress on
    standard error.  The probe log notes the timeout in force, 50. *)
Module V1.
Section V1.
Context {Net : Type} `{PingLib Net} `{NetLib}.

(** [func pingAddr(addr string) *ping.Statistics] *)
Definition pingAddr (addr : string) : M Net Statistics :=
  ok <- call_NewPinger addr ;;
  if negb ok then
    log_probe (mkProbe addr 50 ResolveFailed) ;; panic
  else
    let pinger := mkPinger addr true (wrap64 (50 * Millisecond)) 1 in
    err <- call_Run pinger ;;
    match err with
    | RunPanic =>
        log_probe (mkProbe addr 50 RunPanicked) ;; panic
    | RunError =>
        log_probe (mkProbe addr 50 RunFailed) ;;
        Fatalf "ICMP socket operations require 'sudo'\n"
    | RunOk =>
        stats <- call_Statistics pinger ;;
        log_probe (mkProbe addr 50 (Replied stats)) ;;
        ret stats
    end.

Fixpoint harvest_loop (numAddrs : Z) (addrs pingableAddrs : list string)
  : M Net (list string) :=
  match addrs with
  | [] => ret pingableAddrs
  | addr :: rest =>
      if HasPrefix addr "0" then
        harvest_loop numAddrs rest pingableAddrs
      else
        stats <- pingAddr addr ;;
        let pingableAddrs :=
          if (PacketLoss stats =? 0)%float then pingableAddrs ++ [addr]
          else pingableAddrs in
        if Z.of_nat (length pingableAddrs) =? numAddrs then
          ret pingableAddrs
        else
          harvest_loop numAddrs rest pingableAddrs
  end.

(** [func getPingableAddresses(addrs []string, numAddrs int) []string] *)
Definition getPingableAddresses (addrs : list string) (numAddrs : Z)
  : M Net (list string) :=
  harvest_loop numAddrs addrs [].

Fixpoint harvest_all (numAddresses : Z)
    (groups : list (string * list string)) (pingableHosts : list string)
  : M Net (list string) :=
  match groups with
  | [] => ret pingableHosts
  | (_, addrs) :: rest =>
      found <- getPingableAddresses addrs numAddresses ;;
      harvest_all numAddresses rest (pingableHosts ++ found)
  end.

(** [main], once the ARP cache is decoded. *)
Definition main (range_order : gmap string (list string) -> list (string * list string))
    (arpCache : ArpCache) (numAddresses : Z) : M Net unit :=
  let interfaces := build_interfaces (Entries arpCache) in
  pingableHosts <- harvest_all numAddresses (range_order interfaces) [] ;;
  let pingableHostsSorted := sort_hosts pingableHosts in
  print_results pingableHostsSorted ;;
  Eprint (Plain "\n") ;;
  Eprint (Summary (length pingableHosts)).

End V1.
End V1.

(** Two worlds that differ at most in what is on standard error. *)
Definition same_but_stderr {Net} (w1 w2 : World Net) : Prop :=
  net w1 = net w2 ∧ probes w1 = probes w2 ∧ stdout w1 = stdout w2.

(** * Facts about the harvest *)

Section HarvestFacts.
Context {Net : Type} `{PingLib Net}.
Implicit Types (w : World Net) (addrs acc : list string) (ps : list Probe).

(** One call of [pingAddr] adds one entry to the probe log, and what
    else it does is decided by the outcome in that entry. *)
Lemma pingAddr_spec addr timeout w :
  ∃ o n, pingAddr addr timeout w =
    (probe_res o,
     mkWorld n (probes w ++ [mkProbe addr timeout o]) (stdout w)
             (stderr w ++ probe_diag o)).
Proof.
  unfold pingAddr, bind, call_NewPinger, call_Run, call_Statistics, log_probe.
  destruct (NewPinger addr (net w)) as [ok1 n1] eqn:E1; simpl.
  destruct ok1; simpl.
  - destruct (Run _ n1) as [err n2] eqn:E2; simpl.
    destruct err; simpl.
    + eexists (Replied _), n2. unfold ret; simpl. by rewrite app_nil_r.
    + by exists RunFailed, n2.
    + by exists RunPanicked, n2.
  - by exists ResolveFailed, n1.
Qed.

Lemma candidates_cons_skip a addrs :
  placeholder a → candidates (a :: addrs) = candidates addrs.
Proof. intros Ha. unfold candidates. rewrite filter_cons_False; auto. Qed.

Lemma candidates_cons_keep a addrs :
  ¬ placeholder a → candidates (a :: addrs) = a :: candidates addrs.
Proof. intros Ha. unfold candidates. by rewrite filter_cons_True. Qed.

Lemma reachable_addrs_cons p ps :
  reachable_addrs (p :: ps) =
  (if decide (reachable p) then [probe_addr p] else []) ++ reachable_addrs ps.
Proof.
  unfold reachable_addrs. rewrite filter_cons. by destruct (decide (reachable p)).
Qed.

Lemma ends_with_cons o p ps :
  completed p → ends_with o ps → ends_with o (p :: ps).
Proof.
  intros Hp (ps0 & q & -> & Hall & Hq).
  exists (p :: ps0), q. split_and!; auto.
Qed.

Lemma ends_with_single o p : probe_outcome p = o → ends_with o [p].
Proof. intros Hp. exists [], p. split_and!; auto. Qed.

Lemma harvest_loop_spec numAddrs timeout addrs : ∀ acc w,
  harvest_post numAddrs timeout addrs acc w
    (harvest_loop numAddrs timeout addrs acc w).1
    (harvest_loop numAddrs timeout addrs acc w).2.
Proof.
  unfold harvest_post.
  induction addrs as [|addr rest IH]; intros acc w; simpl.
  - exists []. rewrite !app_nil_r. split_and!; auto using prefix_nil.
  - destruct (HasPrefix addr "0") eqn:Hpre.
    + rewrite candidates_cons_skip by done. apply IH.
    + assert (Hkeep : ¬ placeholder addr) by (unfold placeholder; congruence).
      rewrite candidates_cons_keep by done.
      unfold bind.
      destruct (pingAddr_spec addr timeout w) as (o & n & ->).
      destruct o as [| | |stats]; simpl.
      * exists [mkProbe addr timeout ResolveFailed]. split_and!; auto.
        -- simpl. apply prefix_cons, prefix_nil.
        -- left. by apply ends_with_single.
      * exists [mkProbe addr timeout RunFailed]. split_and!; auto.
        -- simpl. apply prefix_cons, prefix_nil.
        -- by apply ends_with_single.
      * exists [mkProbe addr timeout RunPanicked]. split_and!; auto.
        -- simpl. apply prefix_cons, prefix_nil.
        -- right. by apply ends_with_single.
      * set (p := mkProbe addr timeout (Replied stats)).
        set (acc' := if (PacketLoss stats =? 0)%float then acc ++ [addr] else acc).
        assert (Hacc : acc' = acc ++ (if decide (reachable p) then [probe_addr p] else [])).
        { subst acc' p. destruct (PacketLoss stats =? 0)%float eqn:Hloss.
          - rewrite decide_True; [done | by unfold reachable].
          - rewrite decide_False; [by rewrite app_nil_r|].
            unfold reachable; simpl. congruence. }
        destruct (Z.of_nat (length acc') =? numAddrs) eqn:Hstop.
        -- exists [p]. unfold ret; simpl. rewrite app_nil_r.
           split_and!; auto.
           ++ apply prefix_cons, prefix_nil.
           ++ repeat constructor. 
           ++ rewrite reachable_addrs_cons. unfold reachable_addrs at 1; simpl.
              by rewrite app_nil_r.
           ++ left. lia.
        -- specialize (IH acc' (mkWorld n (probes w ++ [p]) (stdout w) (stderr w ++ []))).
           destruct (harvest_loop numAddrs timeout rest acc' _) as [r w'].
           destruct IH as (ps & Hps & Hout & Hpref & Htime & Hr). simpl in *.
           exists (p :: ps). rewrite <- app_assoc in Hps. rewrite app_nil_r in Hr.
           split_and!; auto.
           ++ simpl. by apply prefix_cons.
           ++ destruct r as [res| |code].
              ** destruct Hr as (Hall & Herr & Hres & Hwhy).
                 split_and!; auto.
                 --- constructor; auto. exact I.
                 --- rewrite Hres, Hacc, reachable_addrs_cons. by rewrite app_assoc.
                 --- destruct Hwhy as [?|Heq]; [by left|right]. rewrite fmap_cons. by rewrite Heq.
              ** destruct Hr as (Hend & Herr). split; auto.
                 destruct Hend as [Hend|Hend]; [left|right];
                   (apply ends_with_cons; [exact I|exact Hend]).
              ** destruct Hr as (Hc & Hend & Herr). split_and!; auto.
                 apply ends_with_cons; auto. exact I.
Qed.

End HarvestFacts.

Section QuotaFacts.
Context {Net : Type} `{PingLib Net}.
Implicit Types (w : World Net) (addrs acc : list string) (ps : list Probe).

(** Below the quota, the loop never goes past it. *)
Lemma harvest_loop_length numAddrs timeout addrs : ∀ acc w,
  Z.of_nat (length acc) < numAddrs →
  match (harvest_loop numAddrs timeout addrs acc w).1 with
  | Ret res => Z.of_nat (length res) ≤ numAddrs
  | _ => True
  end.
Proof.
  induction addrs as [|addr rest IH]; intros acc w Hlt; simpl.
  - lia.
  - destruct (HasPrefix addr "0"); [by apply IH|].
    unfold bind. destruct (pingAddr_spec addr timeout w) as (o & n & ->).
    destruct o as [| | |stats]; simpl; auto.
    set (acc' := if (PacketLoss stats =? 0)%float then acc ++ [addr] else acc).
    assert (Z.of_nat (length acc') ≤ Z.of_nat (length acc) + 1).
    { subst acc'. destruct (PacketLoss stats =? 0)%float; rewrite ?length_app; simpl; lia. }
    destruct (Z.of_nat (length acc') =? numAddrs) eqn:Hstop; simpl; [lia|].
    apply IH. lia.
Qed.

(** Once the loop has returned with the quota met, candidates added at the
    end of the list change nothing: the run is the same, probe for probe. *)
Lemma harvest_loop_early_exit numAddrs timeout pre post : ∀ acc w res w',
  Z.of_nat (length acc) < numAddrs →
  harvest_loop numAddrs timeout pre acc w = (Ret res, w') →
  Z.of_nat (length res) = numAddrs →
  harvest_loop numAddrs timeout (pre ++ post) acc w = (Ret res, w').
Proof.
  induction pre as [|addr rest IH]; intros acc w res w' Hlt Hrun Hlen; simpl in *.
  - unfold ret in Hrun. simplify_eq. lia.
  - destruct (HasPrefix addr "0"); [by apply IH|].
    unfold bind in *. destruct (pingAddr_spec addr timeout w) as (o & n & E).
    rewrite E in *. destruct o as [| | |stats]; simpl in *; try discriminate.
    set (acc' := if (PacketLoss stats =? 0)%float then acc ++ [addr] else acc) in *.
    assert (Z.of_nat (length acc') ≤ Z.of_nat (length acc) + 1).
    { subst acc'. destruct (PacketLoss stats =? 0)%float; rewrite ?length_app; simpl; lia. }
    destruct (Z.of_nat (length acc') =? numAddrs) eqn:Hstop; [done|].
    apply IH; auto. lia.
Qed.

Lemma prefix_is_sublist {A} (l1 l2 : list A) :
  l1 `prefix_of` l2 → l1 `sublist_of` l2.
Proof. intros [k ->]. by apply sublist_inserts_r. Qed.

(** The result of a harvest is taken from the candidates, in their order. *)
Lemma reachable_addrs_sublist ps addrs :
  probe_addr <$> ps `prefix_of` candidates addrs →
  reachable_addrs ps `sublist_of` candidates addrs.
Proof.
  intros Hpre. unfold reachable_addrs.
  etrans; [|apply prefix_is_sublist, Hpre].
  apply fmap_sublist, sublist_filter.
Qed.

Lemma candidates_sublist addrs : candidates addrs `sublist_of` addrs.
Proof. apply sublist_filter. Qed.

(** For a quota of at least one: the result is a subsequence of the input,
    without placeholders, and has at most as many elements as the quota
    and as there are candidates. *)
Lemma harvest_sublist_bound addrs numAddrs timeout w :
  1 ≤ numAddrs →
  match (getPingableAddresses addrs numAddrs timeout w).1 with
  | Ret res =>
      res `sublist_of` addrs ∧
      Z.of_nat (length res) ≤ Z.min numAddrs (Z.of_nat (length (candidates addrs)))
  | _ => True
  end.
Proof.
  intros Hq. unfold getPingableAddresses.
  pose proof (harvest_loop_spec numAddrs timeout addrs [] w) as Hspec.
  pose proof (harvest_loop_length numAddrs timeout addrs [] w) as Hlen.
  destruct (harvest_loop numAddrs timeout addrs [] w) as [r w'].
  destruct Hspec as (ps & _ & _ & Hpre & _ & Hr). simpl in *.
  destruct r as [res| |]; auto.
  destruct Hr as (_ & _ & -> & _). simpl.
  pose proof (reachable_addrs_sublist _ _ Hpre) as Hsub.
  split.
  - etrans; [exact Hsub | apply candidates_sublist].
  - apply sublist_length in Hsub. specialize (Hlen ltac:(simpl; lia)). simpl in Hlen. lia.
Qed.

End QuotaFacts.

(** * The harvest, claim by claim *)

(** C1.  With a quota of 0 the harvest is expected to return nothing and
    to probe nothing.  The early exit is only looked at after a probe, and
    by then the slice may hold one address, whose length is not 0: on two
    candidates that answer, both are probed and both are returned. *)
Theorem quota_zero_probes_and_returns :
  let '(r, w') :=
    getPingableAddresses ["10.0.0.1"; "10.0.0.2"] 0 250
      (Stub.start (Stub.mkNet ["10.0.0.1"; "10.0.0.2"] [] true)) in
  r = Ret ["10.0.0.1"; "10.0.0.2"] ∧
  probe_addr <$> probes w' = ["10.0.0.1"; "10.0.0.2"].
Proof. vm_compute. split; reflexivity. Qed.

(** C2.  The result of a harvest is expected to have at most
    [min(N, number of candidates)] elements for every quota [N >= 0].
    With [N = 0] and one candidate that answers, the result has one
    element, and the bound is 0.  (For [N >= 1] the bound and the order
    are those of [harvest_sublist_bound].) *)
Theorem quota_zero_exceeds_bound :
  let addrs := ["10.0.0.1"] in
  let '(r, _) :=
    getPingableAddresses addrs 0 250 (Stub.start (Stub.mkNet ["10.0.0.1"] [] true)) in
  ∃ res, r = Ret res ∧ res `sublist_of` addrs ∧
    Z.of_nat (length res) = 1 ∧
    Z.min 0 (Z.of_nat (length (candidates addrs))) = 0.
Proof. vm_compute. exists ["10.0.0.1"]. split_and!; reflexivity. Qed.

(** C3.  Early exit, for a quota [N >= 1]: when a harvest of the
    candidates [pre] returns [N] addresses, the harvest of [pre] followed
    by any further candidates [post] is the same run: it returns the same
    addresses and leaves the same world, so the same probe log.  No
    candidate of [post] is probed. *)
Theorem early_exit_no_later_probe {Net} `{PingLib Net}
    (pre post : list string) (numAddrs timeout : Z) (w w' : World Net)
    (res : list string) :
  1 ≤ numAddrs →
  getPingableAddresses pre numAddrs timeout w = (Ret res, w') →
  Z.of_nat (length res) = numAddrs →
  getPingableAddresses (pre ++ post) numAddrs timeout w = (Ret res, w').
Proof.
  intros Hq Hrun Hlen. unfold getPingableAddresses in *.
  eapply harvest_loop_early_exit; eauto. simpl. lia.
Qed.

Lemma early_exit_no_later_probe_witness :
  let w := Stub.start (Stub.mkNet ["10.0.0.2"; "10.0.0.3"] [] true) in
  let w' := mkWorld (Stub.mkNet ["10.0.0.2"; "10.0.0.3"] [] true)
              [mkProbe "10.0.0.1" 250 (Replied (mkStatistics 100%float));
               mkProbe "10.0.0.2" 250 (Replied (mkStatistics 0%float))] [] [] in
  getPingableAddresses (["10.0.0.1"; "10.0.0.2"] ++ ["10.0.0.3"]) 1 250 w
  = (Ret ["10.0.0.2"], w').
Proof.
  apply (early_exit_no_later_probe ["10.0.0.1"; "10.0.0.2"] ["10.0.0.3"] 1 250).
  - lia.
  - vm_compute. reflexivity.
  - reflexivity.
Defined.

(** C4.  A candidate whose text begins with '0' is never handed to
    [pingAddr] and is never in the result: whatever the harvest adds to
    the probe log, and whatever it returns, is free of placeholders. *)
Theorem placeholders_never_probed {Net} `{PingLib Net}
    (addrs : list string) (numAddrs timeout : Z) (w : World Net) :
  let '(r, w') := getPingableAddresses addrs numAddrs timeout w in
  ∃ ps, probes w' = probes w ++ ps ∧
    Forall (fun p => ¬ placeholder (probe_addr p)) ps ∧
    match r with
    | Ret res => Forall (fun a => ¬ placeholder a) res
    | _ => True
    end.
Proof.
  unfold getPingableAddresses.
  pose proof (harvest_loop_spec numAddrs timeout addrs [] w) as Hspec.
  destruct (harvest_loop numAddrs timeout addrs [] w) as [r w'].
  destruct Hspec as (ps & Hps & _ & Hpre & _ & Hr). simpl in *.
  assert (Hcand : Forall (fun a => ¬ placeholder a) (candidates addrs)).
  { apply Forall_forall. intros a Ha. unfold candidates in Ha.
    by apply list_elem_of_filter in Ha as [? _]. }
  exists ps. split_and!; auto.
  - destruct Hpre as [k Hk]. rewrite Hk in Hcand.
    apply Forall_app in Hcand as [Hcand _]. rewrite Forall_fmap in Hcand. exact Hcand.
  - destruct r as [res| |]; auto.
    destruct Hr as (_ & _ & -> & _). simpl.
    rewrite Forall_forall in Hcand. apply Forall_forall. intros a Ha.
    apply Hcand. eapply elem_of_sublist; [exact Ha|].
    by apply reachable_addrs_sublist.
Qed.

(** On a network where the address [a] answers and raw sockets may be
    opened, a harvest with a negative quota and a timeout that makes a
    positive timeout of the pinger returns every copy of [a] it is
    given. *)
Lemma stub_negative_quota_returns_all (a : string) (numAddrs timeout : Z) :
  numAddrs < 0 → ¬ placeholder a →
  0 < wrap64 (wrap64 timeout * Millisecond) →
  ∀ (n : nat) acc (w : World Stub.Net),
    net w = Stub.mkNet [a] [] true →
    (harvest_loop numAddrs timeout (replicate n a) acc w).1
    = Ret (acc ++ replicate n a).
Proof.
  intros Hq Ha Ht. induction n as [|n IH]; intros acc w Hnet; simpl.
  - by rewrite app_nil_r.
  - destruct (HasPrefix a "0") eqn:Hpre; [by destruct Ha|].
    unfold bind, pingAddr, bind, call_NewPinger, call_Run, call_Statistics, log_probe.
    simpl. rewrite Hnet. simpl.
    destruct (Z.leb_spec (wrap64 (wrap64 timeout * Millisecond)) 0) as [|_]; [lia|].
    simpl. unfold Stub.mem. rewrite (bool_decide_true (a ∈ [a])) by constructor.
    change (0 =? 0)%float with true. cbv iota.
    destruct (Z.of_nat (length (acc ++ [a])) =? numAddrs) eqn:Hstop; [apply Z.eqb_eq in Hstop; lia|].
    rewrite IH by done. by rewrite <- app_assoc.
Qed.

(** C10.  A negative quota is never met: the check after each probe
    compares a length with a negative number.  So a harvest that returns
    has probed every candidate that is not a placeholder, in order, and
    returns every address found reachable; a harvest that does not return
    was ended by its last probe: a name that did not resolve or a run that
    panicked, or a run that failed.  The length of the result has no
    bound: on a network where an address answers, with a timeout of 250
    milliseconds, any number of copies of it is returned in full. *)
Theorem negative_quota_no_early_exit {Net} `{PingLib Net}
    (addrs : list string) (numAddrs timeout : Z) (w : World Net) :
  numAddrs < 0 →
  (let '(r, w') := getPingableAddresses addrs numAddrs timeout w in
   ∃ ps, probes w' = probes w ++ ps ∧
     match r with
     | Ret res => probe_addr <$> ps = candidates addrs ∧ res = reachable_addrs ps
     | Panic => ends_with ResolveFailed ps ∨ ends_with RunPanicked ps
     | Exit _ => ends_with RunFailed ps
     end) ∧
  (∀ n : nat, ∃ many : list string,
     (getPingableAddresses many numAddrs 250
        (Stub.start (Stub.mkNet ["10.0.0.1"] [] true))).1 = Ret many ∧
     length many = n).
Proof.
  intros Hq. split.
  - unfold getPingableAddresses.
    pose proof (harvest_loop_spec numAddrs timeout addrs [] w) as Hspec.
    destruct (harvest_loop numAddrs timeout addrs [] w) as [r w'].
    destruct Hspec as (ps & Hps & _ & _ & _ & Hr). simpl in *.
    exists ps. split; auto.
    destruct r as [res| |code].
    + destruct Hr as (_ & _ & Hres & Hwhy). split; auto.
      destruct Hwhy as [Hlen|]; auto. lia.
    + by destruct Hr.
    + by destruct Hr as (_ & ? & _).
  - intros n. exists (replicate n "10.0.0.1"). split.
    + unfold getPingableAddresses.
      by rewrite (stub_negative_quota_returns_all "10.0.0.1" numAddrs 250 Hq).
    + apply length_replicate.
Qed.

Lemma negative_quota_no_early_exit_witness :
  (let '(r, w') :=
     getPingableAddresses ["0.0.0.0"; "10.0.0.1"; "10.0.0.2"; "10.0.0.3"] (-1) 250
       (Stub.start (Stub.mkNet ["10.0.0.1"; "10.0.0.3"] [] true)) in
   ∃ ps, probes w' = [] ++ ps ∧
     match r with
     | Ret res =>
         probe_addr <$> ps = candidates ["0.0.0.0"; "10.0.0.1"; "10.0.0.2"; "10.0.0.3"]
         ∧ res = reachable_addrs ps
     | Panic => ends_with ResolveFailed ps ∨ ends_with RunPanicked ps
     | Exit _ => ends_with RunFailed ps
     end) ∧
  (∀ n : nat, ∃ many : list string,
     (getPingableAddresses many (-1) 250
        (Stub.start (Stub.mkNet ["10.0.0.1"] [] true))).1 = Ret many ∧
     length many = n).
Proof.
  apply (negative_quota_no_early_exit
           ["0.0.0.0"; "10.0.0.1"; "10.0.0.2"; "10.0.0.3"] (-1) 250
           (Stub.start (Stub.mkNet ["10.0.0.1"; "10.0.0.3"] [] true))).
  lia.
Defined.

(** * Facts about the order of addresses *)

Lemma bytes_Compare_range a : ∀ b,
  bytes_Compare a b = -1 ∨ bytes_Compare a b = 0 ∨ bytes_Compare a b = 1.
Proof.
  induction a as [|x a IH]; intros [|y b]; simpl; auto.
  destruct (Z.ltb_spec x y); auto. destruct (Z.ltb_spec y x); auto.
Qed.

Lemma bytes_Compare_flip a : ∀ b, bytes_Compare b a = - bytes_Compare a b.
Proof.
  induction a as [|x a IH]; intros [|y b]; simpl; auto.
  destruct (Z.ltb_spec x y), (Z.ltb_spec y x); auto; lia.
Qed.

Lemma bytes_Compare_eq a : ∀ b, bytes_Compare a b = 0 → a = b.
Proof.
  induction a as [|x a IH]; intros [|y b]; simpl; try done.
  destruct (Z.ltb_spec x y), (Z.ltb_spec y x); try done.
  intros Hab. f_equal; [lia | by apply IH].
Qed.

Lemma bytes_Compare_refl a : bytes_Compare a a = 0.
Proof. induction a as [|x a IH]; simpl; auto. by rewrite Z.ltb_irrefl. Qed.

Lemma bytes_Compare_trans a : ∀ b c,
  bytes_Compare a b ≤ 0 → bytes_Compare b c ≤ 0 → bytes_Compare a c ≤ 0.
Proof.
  induction a as [|x a IH]; intros [|y b] [|z c]; simpl; try lia.
  destruct (Z.ltb_spec x y), (Z.ltb_spec y x), (Z.ltb_spec y z), (Z.ltb_spec z y),
    (Z.ltb_spec x z), (Z.ltb_spec z x); try lia.
  apply IH.
Qed.

#[global] Instance ip_le_trans : Transitive ip_le.
Proof. intros a b c. apply bytes_Compare_trans. Qed.

#[global] Instance ip_le_total : Total ip_le.
Proof.
  intros a b. unfold ip_le. rewrite (bytes_Compare_flip a b).
  destruct (bytes_Compare_range a b) as [->| [->| ->]]; lia.
Qed.

#[global] Instance ip_le_antisymm : AntiSymm (=) ip_le.
Proof.
  intros a b Hab Hba. unfold ip_le in *. rewrite (bytes_Compare_flip a b) in Hba.
  apply bytes_Compare_eq. lia.
Qed.

(** [ip_less] is the strict part of [ip_le]. *)
Lemma ip_less_spec a b : ip_less a b = true ↔ ip_le a b ∧ a ≠ b.
Proof.
  unfold ip_less, ip_le. rewrite Z.ltb_lt. split.
  - intros Hlt. split; [lia|]. intros ->. rewrite bytes_Compare_refl in Hlt. lia.
  - intros [Hle Hne]. destruct (Z.eq_dec (bytes_Compare a b) 0) as [E|]; [|lia].
    by apply bytes_Compare_eq in E.
Qed.

(** In Go's terms: [a] may stand before [b] when [less(b, a)] is false. *)
Lemma ip_le_not_less a b : ip_le a b ↔ ip_less b a = false.
Proof.
  unfold ip_le, ip_less. rewrite Z.ltb_ge, (bytes_Compare_flip a b). lia.
Qed.

Lemma StronglySorted_weaken {A} (R1 R2 : relation A) l :
  (∀ a b, R1 a b → R2 a b) → StronglySorted R1 l → StronglySorted R2 l.
Proof.
  intros Himp. induction 1 as [|a l _ IH Hall]; constructor; [done|].
  eapply Forall_impl; [exact Hall|]. apply Himp.
Qed.

(** Sorting by the closure of [main] puts the slice in the order of
    [bytes.Compare]. *)
Lemma sort_Slice_sorted s : StronglySorted ip_le (sort_Slice ip_less s).
Proof.
  apply (StronglySorted_weaken (fun a b => ip_less b a = false)).
  { intros a b. apply ip_le_not_less. }
  unfold sort_Slice. apply StronglySorted_merge_sort.
  - intros a b c Hab Hbc. apply ip_le_not_less. apply ip_le_not_less in Hab, Hbc.
    by etrans.
  - intros a b. destruct (ip_le_total a b) as [Hle|Hle];
      apply ip_le_not_less in Hle; auto.
Qed.

Lemma sort_Slice_perm {A} (less : A → A → bool) s : sort_Slice less s ≡ₚ s.
Proof. apply merge_sort_Permutation. Qed.

(** There is one way only to sort a slice of addresses: whatever
    rearrangement of [s] is in order is [sort_Slice ip_less s]. *)
Lemma sort_Slice_unique s sorted :
  sorted ≡ₚ s → StronglySorted ip_le sorted → sorted = sort_Slice ip_less s.
Proof.
  intros Hperm Hsorted.
  apply (StronglySorted_unique ip_le); auto using sort_Slice_sorted.
  by rewrite sort_Slice_perm.
Qed.

Lemma ip_le_nil_r (ip : IP) : ip_le ip [] → ip = [].
Proof. destruct ip; [done|]. unfold ip_le. simpl. lia. Qed.

(** In a list of addresses in order, the nil addresses stand first. *)
Lemma sorted_nil_first (ips : list IP) :
  StronglySorted ip_le ips →
  ∃ (k : nat) (rest : list IP),
    ips = replicate k [] ++ rest ∧ Forall (fun ip => ip ≠ []) rest.
Proof.
  induction 1 as [|ip ips Hsorted IH Hall].
  - by exists 0%nat, [].
  - destruct ip as [|b ip].
    + destruct IH as (k & rest & -> & Hrest). by exists (S k), rest.
    + exists 0%nat, ((b :: ip) :: ips). split; [done|].
      constructor; [done|].
      eapply Forall_impl; [exact Hall|]. intros ip' Hle ->.
      by apply ip_le_nil_r in Hle.
Qed.

Lemma filter_nil_replicate (k : nat) (rest : list IP) :
  Forall (fun ip => ip ≠ []) rest →
  filter (fun ip : IP => ip = []) (replicate k [] ++ rest) = replicate k [].
Proof.
  intros Hrest. rewrite filter_app.
  assert (filter (fun ip : IP => ip = []) rest = []) as ->.
  { induction Hrest as [|ip rest Hip _ IH]; [done|]. by rewrite filter_cons_False. }
  rewrite app_nil_r. induction k as [|k IH]; [done|].
  simpl. by rewrite filter_cons_True, IH.
Qed.

(** In a list in order, an earlier element is at most a later one, and
    the closure of [main] tells them apart unless they are the same. *)
Lemma sorted_lookup_le (ips : list IP) (i j : nat) (a b : IP) :
  StronglySorted ip_le ips →
  (i < j)%nat → ips !! i = Some a → ips !! j = Some b →
  bytes_Compare a b ≤ 0 ∧ (a = b ∨ ip_less a b = true).
Proof.
  intros Hsorted. revert i j.
  induction Hsorted as [|c ips _ IH Hall]; intros i j Hij Hi Hj; [done|].
  destruct j as [|j]; [lia|]. destruct i as [|i].
  - simpl in Hi, Hj. simplify_eq. rewrite Forall_forall in Hall.
    assert (Hle : ip_le a b) by (apply Hall; by eapply list_elem_of_lookup_2).
    split; [exact Hle|].
    destruct (decide (a = b)) as [|Hne]; [by left|right].
    by apply ip_less_spec.
  - simpl in Hi, Hj. apply (IH i j); [lia|done..].
Qed.

Lemma filter_nonnil_replicate (k : nat) (rest : list IP) :
  Forall (fun ip => ip ≠ []) rest →
  filter (fun ip : IP => ip ≠ []) (replicate k [] ++ rest) = rest.
Proof.
  intros Hrest. rewrite filter_app.
  assert (filter (fun ip : IP => ip ≠ []) rest = rest) as ->.
  { induction Hrest as [|ip rest Hip _ IH]; [done|].
    rewrite filter_cons_True by done. by rewrite IH. }
  induction k as [|k IH]; [done|]. simpl. by rewrite filter_cons_False by auto.
Qed.

(** The sorted slice of [main]: one nil address for each harvested address
    that did not parse, then the parsed addresses. *)
Lemma sort_hosts_nil_split `{NetLib} (pingableHosts : list string) :
  ∃ rest : list IP,
    sort_hosts pingableHosts =
      replicate (length (filter (fun a => ParseIP a = []) pingableHosts)) [] ++ rest ∧
    Forall (fun ip => ip ≠ []) rest ∧
    rest ≡ₚ filter (fun ip : IP => ip ≠ []) (ParseIP <$> pingableHosts).
Proof.
  destruct (sorted_nil_first (sort_hosts pingableHosts)) as (k & rest & Hsplit & Hrest);
    [apply sort_Slice_sorted|].
  assert (Hperm : replicate k [] ++ rest ≡ₚ ParseIP <$> pingableHosts).
  { rewrite <- Hsplit. unfold sort_hosts. apply sort_Slice_perm. }
  assert (Hk : k = length (filter (fun a => ParseIP a = []) pingableHosts)).
  { assert (Hcount : length (filter (fun ip : IP => ip = []) (replicate k [] ++ rest))
                     = length (filter (fun ip : IP => ip = []) (ParseIP <$> pingableHosts)))
      by (by rewrite Hperm).
    rewrite filter_nil_replicate, length_replicate in Hcount by done.
    rewrite Hcount. clear.
    induction pingableHosts as [|a hosts IH]; [done|].
    rewrite fmap_cons, !filter_cons.
    destruct (decide (ParseIP a = [])); simpl; by rewrite IH. }
  exists rest. split_and!; [by rewrite Hsplit, Hk | done |].
  by rewrite <- Hperm, filter_nonnil_replicate.
Qed.

(** * Facts about main *)

Section MainFacts.
Context {Net : Type} `{PingLib Net} `{NetLib}.
Implicit Types (w : World Net) (ps : list Probe).

Lemma ends_with_app o ps1 ps2 :
  Forall completed ps1 → ends_with o ps2 → ends_with o (ps1 ++ ps2).
Proof.
  intros Hall1 (ps0 & p & -> & Hall0 & Hp).
  exists (ps1 ++ ps0), p. rewrite app_assoc. split_and!; auto.
  by apply Forall_app.
Qed.

(** In a sequence of probes that ends the process, every probe came to
    its end but the one that ended it. *)
Lemma ends_with_outcome o ps p :
  ends_with o ps → p ∈ ps → completed p ∨ probe_outcome p = o.
Proof.
  intros (ps0 & q & -> & Hall0 & Hq) Hp.
  apply elem_of_app in Hp as [Hp|Hp].
  - left. rewrite Forall_forall in Hall0. auto.
  - apply list_elem_of_singleton in Hp as ->. auto.
Qed.

(** [harvest_all] returns what it was given followed by the results of
    the harvests, one after the other. *)
Lemma harvest_all_each numAddresses timeout groups : ∀ hosts w,
  harvest_all numAddresses timeout groups hosts w =
  let '(r, w') := harvest_each numAddresses timeout groups w in
  (match r with
   | Ret founds => Ret (hosts ++ concat founds)
   | Panic => Panic
   | Exit code => Exit code
   end, w').
Proof.
  induction groups as [|[name addrs] rest IH]; intros hosts w; simpl.
  - unfold ret. by rewrite app_nil_r.
  - unfold bind.
    destruct (getPingableAddresses addrs numAddresses timeout w) as [[found| |code] w1];
      auto.
    rewrite IH.
    destruct (harvest_each numAddresses timeout rest w1) as [[founds| |code] w2];
      unfold ret; simpl; auto.
    by rewrite app_assoc.
Qed.

(** What the harvests of [main] leave behind. *)
Lemma harvest_each_spec numAddresses timeout groups : ∀ w,
  let '(r, w') := harvest_each numAddresses timeout groups w in
  ∃ ps,
    probes w' = probes w ++ ps ∧
    stdout w' = stdout w ∧
    match r with
    | Ret founds =>
        Forall completed ps ∧ stderr w' = stderr w ∧
        Forall2 (harvested numAddresses timeout) groups founds
    | Exit code =>
        code = 1 ∧ ends_with RunFailed ps ∧
        stderr w' = stderr w ++ [LogFatal fatal_msg]
    | Panic =>
        (ends_with ResolveFailed ps ∨ ends_with RunPanicked ps) ∧
        stderr w' = stderr w ++ [PanicTrace]
    end.
Proof.
  induction groups as [|[name addrs] rest IH]; intros w; simpl.
  - exists []. rewrite app_nil_r. split_and!; auto.
  - unfold bind, getPingableAddresses.
    pose proof (harvest_loop_spec numAddresses timeout addrs [] w) as Hone.
    destruct (harvest_loop numAddresses timeout addrs [] w) as [r1 w1] eqn:Erun.
    destruct Hone as (ps1 & Hps1 & Hout1 & _ & _ & Hr1). simpl in *.
    destruct r1 as [found| |code].
    + destruct Hr1 as (Hall1 & Herr1 & _ & _).
      specialize (IH w1).
      destruct (harvest_each numAddresses timeout rest w1) as [r2 w2].
      destruct IH as (ps2 & Hps2 & Hout2 & Hr2).
      destruct r2 as [founds| |code]; unfold ret; simpl;
        exists (ps1 ++ ps2); rewrite app_assoc, <- Hps1, <- Hout1, <- Herr1;
        (split; [done|]); (split; [done|]).
      * destruct Hr2 as (Hall2 & Herr2 & Hfounds). split_and!; auto.
        -- by apply Forall_app.
        -- constructor; auto. by exists w, w1.
      * destruct Hr2 as (Hend & Herr2). split; auto.
        destruct Hend as [Hend|Hend]; [left|right]; by apply ends_with_app.
      * destruct Hr2 as (Hc & Hend & Herr2). split_and!; auto.
        by apply ends_with_app.
    + destruct Hr1 as (? & ?). exists ps1. by split_and!.
    + destruct Hr1 as (? & ? & ?). exists ps1. by split_and!.
Qed.

Lemma print_results_spec ips : ∀ w,
  print_results ips w =
  (Ret tt, mkWorld (net w) (probes w) (stdout w ++ (IP_String <$> ips)) (stderr w)).
Proof.
  induction ips as [|ip ips IH]; intros w; simpl.
  - unfold ret. rewrite app_nil_r. by destruct w.
  - unfold bind, Println at 1. rewrite IH. simpl. by rewrite <- app_assoc.
Qed.

(** [main] is its harvests, then the sorted addresses on standard output. *)
Lemma main_spec range_order arpCache numAddresses timeout w :
  main range_order arpCache numAddresses timeout w =
  let groups := range_order (build_interfaces (Entries arpCache)) in
  let '(r, w1) := harvest_each numAddresses timeout groups (before_harvest w) in
  match r with
  | Ret founds =>
      (Ret tt,
       mkWorld (net w1) (probes w1)
         (stdout w1 ++ (IP_String <$> sort_hosts (concat founds)))
         (stderr w1 ++ after_harvest (length (concat founds))))
  | Panic => (Panic, w1)
  | Exit code => (Exit code, w1)
  end.
Proof.
  unfold main. unfold bind at 1 2 3 4. unfold Eprint at 1 2 3. simpl.
  rewrite harvest_all_each. unfold before_harvest.
  rewrite <- !app_assoc. simpl.
  destruct (harvest_each _ _ _ _) as [[founds| |code] w1]; auto.
  unfold bind, Eprint. simpl. rewrite print_results_spec. simpl.
  unfold after_harvest. by rewrite <- !app_assoc.
Qed.

End MainFacts.

(** * The grouping by interface *)

Lemma addresses_of_cons int entries name :
  addresses_of name (int :: entries) =
  (if decide (Name int = name) then [Address int] else []) ++ addresses_of name entries.
Proof.
  unfold addresses_of. rewrite filter_cons. by destruct (decide (Name int = name)).
Qed.

Lemma addresses_of_nil name entries :
  addresses_of name entries = [] ↔ name ∉ Name <$> entries.
Proof.
  induction entries as [|int entries IH]; simpl.
  - split; [intros _; apply not_elem_of_nil | intros _; reflexivity].
  - rewrite addresses_of_cons, not_elem_of_cons, <- IH.
    destruct (decide (Name int = name)) as [->|Hne]; simpl.
    + split; [done | by intros [? _]].
    + split; [by intros ?; split; [congruence|] | by intros [_ ?]].
Qed.

(** The loop of lines 100-102, started with any map [m]. *)
Lemma build_fold_lookup entries : ∀ (m : gmap string (list string)) name,
  fold_left
    (fun interfaces int =>
       <[Name int := default [] (interfaces !! Name int) ++ [Address int]]> interfaces)
    entries m !! name =
  match addresses_of name entries with
  | [] => m !! name
  | l => Some (default [] (m !! name) ++ l)
  end.
Proof.
  induction entries as [|int entries IH]; intros m name; simpl; [done|].
  rewrite IH, addresses_of_cons.
  destruct (decide (Name int = name)) as [->|Hne]; simpl.
  - rewrite lookup_insert_eq. simpl.
    destruct (addresses_of _ entries); [done|].
    by rewrite <- app_assoc.
  - by rewrite lookup_insert_ne.
Qed.

(** C8.  The map built from the entries has exactly the interface names
    of the entries as keys, and under each name the addresses of the
    entries of that name, in the order of the entries, each as often as it
    occurs there. *)
Theorem grouping_by_interface (entries : list Interface) (name : string) :
  build_interfaces entries !! name =
    (if decide (name ∈ Name <$> entries)
     then Some (addresses_of name entries)
     else None)
  ∧ dom (build_interfaces entries) = list_to_set (Name <$> entries).
Proof.
  assert (Hlook : ∀ k, build_interfaces entries !! k =
            if decide (k ∈ Name <$> entries) then Some (addresses_of k entries) else None).
  { intros k. unfold build_interfaces. rewrite build_fold_lookup, lookup_empty. simpl.
    destruct (decide (k ∈ Name <$> entries)) as [Hin|Hout].
    - destruct (addresses_of k entries) eqn:E; [|done].
      by apply addresses_of_nil in E.
    - apply addresses_of_nil in Hout. by rewrite Hout. }
  split; [apply Hlook|].
  apply set_eq. intros k. rewrite elem_of_dom, Hlook, elem_of_list_to_set.
  destruct (decide (k ∈ Name <$> entries)); split; done.
Qed.

(** * The output of main, claim by claim *)

(** What [main] does with the hosts that its harvest returned. *)
Lemma main_by_harvest {Net} `{PingLib Net} `{NetLib}
    (range_order : gmap string (list string) -> list (string * list string))
    (arpCache : ArpCache) (numAddresses timeout : Z) (w : World Net) :
  let '(r, w') := main range_order arpCache numAddresses timeout w in
  let '(rh, _) :=
    harvest_all numAddresses timeout
      (range_order (build_interfaces (Entries arpCache))) [] (before_harvest w) in
  r = carry rh tt ∧
  match rh with
  | Ret hosts => stdout w' = stdout w ++ (IP_String <$> sort_hosts hosts)
  | _ => stdout w' = stdout w
  end.
Proof.
  rewrite main_spec, harvest_all_each. cbv zeta.
  pose proof (harvest_each_spec numAddresses timeout
                (range_order (build_interfaces (Entries arpCache)))
                (before_harvest w)) as Hspec.
  destruct (harvest_each _ _ _ _) as [r w1].
  destruct Hspec as (ps & _ & Hout & _). simpl in Hout.
  destruct r as [founds| |code]; simpl; (split; [done|]); auto.
  by rewrite Hout.
Qed.

(** C5.  What [main] prints is in ascending order of the bytes of the
    parsed addresses.  When the harvest of [main] returns the hosts
    [hosts], the lines added to standard output are the texts of a
    rearrangement of the parsed hosts in which every address is followed
    only by addresses that [bytes.Compare] does not put before it: an
    address and a later one are the same, or the closure given to
    [sort.Slice] says that the earlier is less.  When the harvest does not
    return, nothing is printed.  The order is not that of the texts: of
    10.0.0.2, 10.0.0.10 and 10.0.0.1, all answering, the lines are
    10.0.0.1, 10.0.0.2, 10.0.0.10, although as a text 10.0.0.10 stands
    before 10.0.0.2. *)
Theorem output_sorted_by_bytes {Net} `{PingLib Net} `{NetLib}
    (range_order : gmap string (list string) -> list (string * list string))
    (arpCache : ArpCache) (numAddresses timeout : Z) (w : World Net) :
  (let '(_, w') := main range_order arpCache numAddresses timeout w in
   let '(rh, _) :=
     harvest_all numAddresses timeout
       (range_order (build_interfaces (Entries arpCache))) [] (before_harvest w) in
   match rh with
   | Ret hosts =>
       ∃ ips : list IP,
         stdout w' = stdout w ++ (IP_String <$> ips) ∧
         ips ≡ₚ ParseIP <$> hosts ∧
         ∀ (i j : nat) (a b : IP),
           (i < j)%nat → ips !! i = Some a → ips !! j = Some b →
           bytes_Compare a b ≤ 0 ∧ (a = b ∨ ip_less a b = true)
   | _ => stdout w' = stdout w
   end)
  ∧
  (let three := ["10.0.0.2"; "10.0.0.10"; "10.0.0.1"] in
   stdout (@main Stub.Net Stub.lib GoNet.lib4 map_to_list
             (mkArpCache (mkInterface "ethernet1/1" <$> three)) 3 250
             (Stub.start (Stub.mkNet three [] true))).2
   = ["10.0.0.1"; "10.0.0.2"; "10.0.0.10"]
   ∧ String.ltb "10.0.0.10" "10.0.0.2" = true).
Proof.
  split.
  - pose proof (main_by_harvest range_order arpCache numAddresses timeout w) as Hmain.
    destruct (main _ _ _ _ _) as [r w'].
    destruct (harvest_all _ _ _ _ _) as [rh wh].
    destruct Hmain as [_ Hout].
    destruct rh as [hosts| |code]; [|done..].
    exists (sort_hosts hosts). split_and!; [done| |].
    + unfold sort_hosts. apply sort_Slice_perm.
    + intros i j a b. apply sorted_lookup_le, sort_Slice_sorted.
  - vm_compute. split; reflexivity.
Qed.

(** C6, as the code has it.  [main] never looks at what [net.ParseIP]
    returns.  How the run ends is decided by the harvest alone: when the
    harvest returns, [main] returns.  An address that does not parse is
    kept as the nil address, and the nil address stands before every
    other: the lines added to standard output begin with one line for each
    harvested address that did not parse, the text of the nil address, and
    go on with the texts of the addresses that did parse.  With Go's
    printer the text of the nil address is [<nil>]. *)
Theorem parse_failure_is_not_fatal {Net} `{PingLib Net} `{NetLib}
    (range_order : gmap string (list string) -> list (string * list string))
    (arpCache : ArpCache) (numAddresses timeout : Z) (w : World Net) :
  (let '(r, w') := main range_order arpCache numAddresses timeout w in
   let '(rh, _) :=
     harvest_all numAddresses timeout
       (range_order (build_interfaces (Entries arpCache))) [] (before_harvest w) in
   r = carry rh tt ∧
   match rh with
   | Ret hosts =>
       ∃ parsed : list IP,
         stdout w' = stdout w
                     ++ replicate (length (filter (fun a => ParseIP a = []) hosts))
                                  (IP_String [])
                     ++ (IP_String <$> parsed) ∧
         Forall (fun ip => ip ≠ []) parsed ∧
         parsed ≡ₚ filter (fun ip : IP => ip ≠ []) (ParseIP <$> hosts)
   | _ => stdout w' = stdout w
   end)
  ∧
  (∀ (parseIPv6 : string → IP) (ipv6String : IP → string),
     @IP_String (GoNet.lib parseIPv6 ipv6String) [] = "<nil>").
Proof.
  split; [|done].
  pose proof (main_by_harvest range_order arpCache numAddresses timeout w) as Hmain.
  destruct (main _ _ _ _ _) as [r w'].
  destruct (harvest_all _ _ _ _ _) as [rh wh].
  destruct Hmain as [Hr Hout]. split; [done|].
  destruct rh as [hosts| |code]; [|done..].
  destruct (sort_hosts_nil_split hosts) as (parsed & Hsplit & Hparsed & Hperm).
  exists parsed. split_and!; [|done..].
  by rewrite Hout, Hsplit, fmap_app, fmap_replicate.
Qed.

(** C6, as it is stated, fails.  On a network where the name [localhost]
    and 10.0.0.1 answer, the harvest returns both; [localhost] has no '.'
    and no ':', so it parses to nil; the run ends normally, with exit
    status 0, and the line of the address that did not parse is on
    standard output, before the line of the one that did. *)
Lemma unparsable_address_is_printed :
  let '(r, w') :=
    @main Stub.Net Stub.lib GoNet.lib4 map_to_list
      (mkArpCache [mkInterface "ethernet1/1" "10.0.0.1";
                   mkInterface "ethernet1/1" "localhost"]) 2 250
      (Stub.start (Stub.mkNet ["10.0.0.1"; "localhost"] [] true)) in
  @ParseIP GoNet.lib4 "localhost" = [] ∧
  r = Ret tt ∧ exit_status r = 0 ∧ stdout w' = ["<nil>"; "10.0.0.1"].
Proof. vm_compute. split_and!; reflexivity. Qed.




(** C9.  A probe that cannot be run is the end of the process: if any
    probe made by [main] failed to run, then [main] left through
    [log.Fatalf], so with exit status 1; its message is the last thing on
    standard error, and nothing was written to standard output. *)
Theorem probe_failure_aborts_before_output {Net} `{PingLib Net} `{NetLib}
    (range_order : gmap string (list string) -> list (string * list string))
    (arpCache : ArpCache) (numAddresses timeout : Z) (w w' : World Net)
    (r : Res unit) (ps : list Probe) (p : Probe) :
  main range_order arpCache numAddresses timeout w = (r, w') →
  probes w' = probes w ++ ps →
  p ∈ ps → probe_outcome p = RunFailed →
  r = Exit 1 ∧ exit_status r ≠ 0 ∧
  stdout w' = stdout w ∧
  stderr w' = stderr (before_harvest w) ++ [LogFatal fatal_msg].
Proof.
  intros Hmain Hps Hp Hfail. rewrite main_spec in Hmain. cbv zeta in Hmain.
  pose proof (harvest_each_spec numAddresses timeout
                (range_order (build_interfaces (Entries arpCache)))
                (before_harvest w)) as Hspec.
  destruct (harvest_each _ _ _ _) as [rh w1].
  destruct Hspec as (ps' & Hps' & Hout & Hr). simpl in Hps', Hout.
  assert (Hsame : probes w' = probes w1) by (destruct rh; by simplify_eq).
  assert (ps' = ps) as -> by (eapply app_inv_head; by rewrite <- Hps', <- Hsame, Hps).
  destruct rh as [founds| |code]; simplify_eq.
  - destruct Hr as (Hall & _). rewrite Forall_forall in Hall.
    specialize (Hall p Hp). unfold completed in Hall. by rewrite Hfail in Hall.
  - destruct Hr as ([Hend|Hend] & _);
      (destruct (ends_with_outcome _ _ _ Hend Hp) as [Hrep|Hres];
       [unfold completed in Hrep; by rewrite Hfail in Hrep | congruence]).
  - destruct Hr as (-> & _ & Herr). simpl. split_and!; auto.
Qed.

Lemma probe_failure_aborts_before_output_witness :
  let arp := mkArpCache [mkInterface "ethernet1/1" "10.0.0.1";
                         mkInterface "ethernet1/1" "10.0.0.2"] in
  let w := Stub.start (Stub.mkNet ["10.0.0.1"; "10.0.0.2"] [] false) in
  let run := @main Stub.Net Stub.lib GoNet.lib4 map_to_list arp 2 250 w in
  probes run.2 = [mkProbe "10.0.0.1" 250 RunFailed] ∧
  run.1 = Exit 1 ∧ exit_status run.1 ≠ 0 ∧
  stdout run.2 = stdout w ∧
  stderr run.2 = stderr (before_harvest w) ++ [LogFatal fatal_msg].
Proof.
  split; [vm_compute; reflexivity|].
  apply (@probe_failure_aborts_before_output Stub.Net Stub.lib GoNet.lib4 map_to_list
           (mkArpCache [mkInterface "ethernet1/1" "10.0.0.1";
                        mkInterface "ethernet1/1" "10.0.0.2"]) 2 250
           (Stub.start (Stub.mkNet ["10.0.0.1"; "10.0.0.2"] [] false)) _ _
           [mkProbe "10.0.0.1" 250 RunFailed] (mkProbe "10.0.0.1" 250 RunFailed)).
  - vm_compute. reflexivity.
  - vm_compute. reflexivity.
  - constructor.
  - reflexivity.
Defined.

(** * A run from end to end *)

(** Two entries on one interface and one on another, a quota of 1, and a
    network where 10.0.0.1 does not answer: the lines are 10.0.0.2 and
    192.168.1.1, in this order, whatever the order of the interfaces. *)
Example end_to_end_scenario :
  let arp := mkArpCache [mkInterface "eth0" "10.0.0.1";
                         mkInterface "eth0" "10.0.0.2";
                         mkInterface "eth1" "192.168.1.1"] in
  let w := Stub.start (Stub.mkNet ["10.0.0.2"; "192.168.1.1"] [] true) in
  stdout (@main Stub.Net Stub.lib GoNet.lib4 map_to_list arp 1 250 w).2
    = ["10.0.0.2"; "192.168.1.1"] ∧
  stdout (@main Stub.Net Stub.lib GoNet.lib4 (fun m => reverse (map_to_list m)) arp 1 250 w).2
    = ["10.0.0.2"; "192.168.1.1"].
Proof. vm_compute. split; reflexivity. Qed.

(** * More on the harvest *)

Section HarvestMore.
Context {Net : Type} `{PingLib Net}.
Implicit Types (w : World Net) (addrs acc : list string) (ps : list Probe).

(** Placeholders are as good as absent: the loop on a list is the loop on
    its candidates. *)
Lemma harvest_loop_candidates numAddrs timeout addrs : ∀ acc w,
  harvest_loop numAddrs timeout addrs acc w =
  harvest_loop numAddrs timeout (candidates addrs) acc w.
Proof.
  induction addrs as [|addr rest IH]; intros acc w; [done|].
  destruct (HasPrefix addr "0") eqn:Hpre.
  - rewrite candidates_cons_skip by done. simpl. rewrite Hpre. apply IH.
  - rewrite candidates_cons_keep by (unfold placeholder; congruence).
    simpl. rewrite Hpre. unfold bind.
    destruct (pingAddr addr timeout w) as [[stats| |code] w1]; auto.
    destruct (Z.of_nat _ =? numAddrs); auto.
Qed.

(** Raising the quota only lets the run go on: up to the point where the
    lower quota is met, the two runs are the same. *)
Lemma harvest_loop_quota_mono lo hi timeout addrs : ∀ acc w,
  Z.of_nat (length acc) < lo → lo ≤ hi →
  let '(r1, w1) := harvest_loop lo timeout addrs acc w in
  let '(r2, w2) := harvest_loop hi timeout addrs acc w in
  match r1 with
  | Ret res1 =>
      probes w1 `prefix_of` probes w2 ∧
      match r2 with Ret res2 => res1 `prefix_of` res2 | _ => True end
  | _ => (r2, w2) = (r1, w1)
  end.
Proof.
  induction addrs as [|addr rest IH]; intros acc w Hlt Hle; simpl.
  - done.
  - destruct (HasPrefix addr "0"); [by apply IH|].
    unfold bind. destruct (pingAddr_spec addr timeout w) as (o & n & ->).
    destruct o as [| | |stats]; simpl; auto.
    set (acc' := if (PacketLoss stats =? 0)%float then acc ++ [addr] else acc).
    assert (Z.of_nat (length acc') ≤ Z.of_nat (length acc) + 1).
    { subst acc'. destruct (PacketLoss stats =? 0)%float; rewrite ?length_app; simpl; lia. }
    set (w1 := mkWorld n _ _ _).
    destruct (Z.of_nat (length acc') =? lo) eqn:Hlo.
    + apply Z.eqb_eq in Hlo.
      destruct (Z.of_nat (length acc') =? hi) eqn:Hhi; [done|].
      pose proof (harvest_loop_spec hi timeout rest acc' w1) as Hspec.
      destruct (harvest_loop hi timeout rest acc' w1) as [r2 w2].
      destruct Hspec as (ps & Hps & _ & _ & _ & Hr). simpl in Hps, Hr.
      split; [rewrite Hps; by apply prefix_app_r|].
      destruct r2 as [res2| |]; auto.
      destruct Hr as (_ & _ & -> & _). by apply prefix_app_r.
    + apply Z.eqb_neq in Hlo.
      destruct (Z.of_nat (length acc') =? hi) eqn:Hhi; [apply Z.eqb_eq in Hhi; lia|].
      apply IH; lia.
Qed.

End HarvestMore.

(** X1.  What a harvest returns is read off its probes: the addresses of
    the probes that were answered without loss, each as often and in the
    order in which it was probed.  No address is returned that was not
    probed and found reachable in this very harvest, and none that was is
    left out. *)
Theorem harvest_returns_reachable_probes {Net} `{PingLib Net}
    (addrs : list string) (numAddrs timeout : Z) (w : World Net) :
  let '(r, w') := getPingableAddresses addrs numAddrs timeout w in
  ∃ ps, probes w' = probes w ++ ps ∧
    match r with
    | Ret res => res = reachable_addrs ps
    | _ => True
    end.
Proof.
  unfold getPingableAddresses.
  pose proof (harvest_loop_spec numAddrs timeout addrs [] w) as Hspec.
  destruct (harvest_loop numAddrs timeout addrs [] w) as [r w'].
  destruct Hspec as (ps & Hps & _ & _ & _ & Hr). simpl in *.
  exists ps. split; [done|]. destruct r; auto. by destruct Hr as (_ & _ & -> & _).
Qed.

(** X2.  A harvest probes the candidates in their order, each occurrence
    once at most and with the timeout it was given: the addresses of its
    probes are an initial part of the list of candidates.  There is no
    second attempt. *)
Theorem harvest_probes_in_order {Net} `{PingLib Net}
    (addrs : list string) (numAddrs timeout : Z) (w : World Net) :
  let '(_, w') := getPingableAddresses addrs numAddrs timeout w in
  ∃ ps, probes w' = probes w ++ ps ∧
    probe_addr <$> ps `prefix_of` candidates addrs ∧
    Forall (fun p => probe_timeout p = timeout) ps.
Proof.
  unfold getPingableAddresses.
  pose proof (harvest_loop_spec numAddrs timeout addrs [] w) as Hspec.
  destruct (harvest_loop numAddrs timeout addrs [] w) as [r w'].
  destruct Hspec as (ps & Hps & _ & Hpre & Htime & _). simpl in *.
  by exists ps.
Qed.

(** X3.  A harvest stops early for one reason only.  When it returns,
    either the quota is met exactly, or every candidate of the list has
    been probed. *)
Theorem harvest_stops_only_at_quota {Net} `{PingLib Net}
    (addrs : list string) (numAddrs timeout : Z) (w : World Net) :
  let '(r, w') := getPingableAddresses addrs numAddrs timeout w in
  ∃ ps, probes w' = probes w ++ ps ∧
    match r with
    | Ret res =>
        Z.of_nat (length res) = numAddrs ∨ probe_addr <$> ps = candidates addrs
    | _ => True
    end.
Proof.
  unfold getPingableAddresses.
  pose proof (harvest_loop_spec numAddrs timeout addrs [] w) as Hspec.
  destruct (harvest_loop numAddrs timeout addrs [] w) as [r w'].
  destruct Hspec as (ps & Hps & _ & _ & _ & Hr). simpl in *.
  exists ps. split; [done|]. destruct r; auto. by destruct Hr as (_ & _ & _ & ?).
Qed.

(** X4.  Placeholders are as good as absent: the harvest of a list and the
    harvest of the list without its placeholders are the same run. *)
Theorem harvest_ignores_placeholders {Net} `{PingLib Net}
    (addrs : list string) (numAddrs timeout : Z) (w : World Net) :
  getPingableAddresses addrs numAddrs timeout w =
  getPingableAddresses (candidates addrs) numAddrs timeout w.
Proof. apply harvest_loop_candidates. Qed.

(** X5.  On a list with nothing but placeholders, the empty list among
    them, a harvest returns no address and leaves the world as it was: no
    probe, nothing written, whatever the quota. *)
Theorem harvest_of_placeholders_only {Net} `{PingLib Net}
    (addrs : list string) (numAddrs timeout : Z) (w : World Net) :
  Forall placeholder addrs →
  getPingableAddresses addrs numAddrs timeout w = (Ret [], w).
Proof.
  intros Hall. unfold getPingableAddresses. rewrite harvest_loop_candidates.
  assert (candidates addrs = []) as ->; [|done].
  induction Hall as [|a l Ha _ IH]; [done|]. by rewrite candidates_cons_skip.
Qed.

Lemma harvest_of_placeholders_only_witness :
  Forall placeholder ["0.0.0.0"; "0.1.2.3"] ∧
  getPingableAddresses ["0.0.0.0"; "0.1.2.3"] 2 250
    (Stub.start (Stub.mkNet ["0.0.0.0"; "0.1.2.3"] [] true))
  = (Ret [], Stub.start (Stub.mkNet ["0.0.0.0"; "0.1.2.3"] [] true)).
Proof.
  assert (Hall : Forall placeholder ["0.0.0.0"; "0.1.2.3"])
    by (repeat constructor).
  split; [exact Hall|].
  exact (harvest_of_placeholders_only ["0.0.0.0"; "0.1.2.3"] 2 250 _ Hall).
Defined.

(** X6.  Raising the quota only lets a harvest go on.  With quotas
    [1 <= lo <= hi] and the same start, a harvest under [lo] that ends the
    process is the harvest under [hi]; one that returns made the first
    probes of the harvest under [hi], and what it returns is the beginning
    of what that one returns. *)
Theorem harvest_quota_monotone {Net} `{PingLib Net}
    (addrs : list string) (lo hi timeout : Z) (w : World Net) :
  1 ≤ lo → lo ≤ hi →
  let '(r1, w1) := getPingableAddresses addrs lo timeout w in
  let '(r2, w2) := getPingableAddresses addrs hi timeout w in
  match r1 with
  | Ret res1 =>
      probes w1 `prefix_of` probes w2 ∧
      match r2 with Ret res2 => res1 `prefix_of` res2 | _ => True end
  | _ => (r2, w2) = (r1, w1)
  end.
Proof.
  intros Hlo Hle. unfold getPingableAddresses.
  apply harvest_loop_quota_mono; simpl; lia.
Qed.

Lemma harvest_quota_monotone_witness :
  let addrs := ["10.0.0.1"; "10.0.0.2"; "10.0.0.3"; "10.0.0.4"] in
  let w := Stub.start (Stub.mkNet ["10.0.0.2"; "10.0.0.3"; "10.0.0.4"] [] true) in
  let '(r1, w1) := getPingableAddresses addrs 1 250 w in
  let '(r2, w2) := getPingableAddresses addrs 2 250 w in
  match r1 with
  | Ret res1 =>
      probes w1 `prefix_of` probes w2 ∧
      match r2 with Ret res2 => res1 `prefix_of` res2 | _ => True end
  | _ => (r2, w2) = (r1, w1)
  end.
Proof.
  apply (harvest_quota_monotone
           ["10.0.0.1"; "10.0.0.2"; "10.0.0.3"; "10.0.0.4"] 1 2 250
           (Stub.start (Stub.mkNet ["10.0.0.2"; "10.0.0.3"; "10.0.0.4"] [] true)));
    lia.
Defined.

(** X7.  How a harvest can end, and what it leaves on the streams.  It
    never writes to standard output.  When it returns, every probe came to
    its end (the pinger was set up and its run returned no error, with or
    without an answer of the host) and standard error is as before.
    Otherwise the probe that ended the process is the last one made, every
    probe before it came to its end, and the report of the failure is the
    one thing added to standard error: the message of [log.Fatalf], with
    exit status 1, when the run of the pinger returned an error, and the
    trace of the panic when the name did not resolve or the run of the
    pinger panicked. *)
Theorem harvest_ends_at_first_failure {Net} `{PingLib Net}
    (addrs : list string) (numAddrs timeout : Z) (w : World Net) :
  let '(r, w') := getPingableAddresses addrs numAddrs timeout w in
  ∃ ps, probes w' = probes w ++ ps ∧ stdout w' = stdout w ∧
    match r with
    | Ret _ => Forall completed ps ∧ stderr w' = stderr w
    | Exit code =>
        code = 1 ∧ ends_with RunFailed ps ∧
        stderr w' = stderr w ++ [LogFatal fatal_msg]
    | Panic =>
        (ends_with ResolveFailed ps ∨ ends_with RunPanicked ps) ∧
        stderr w' = stderr w ++ [PanicTrace]
    end.
Proof.
  unfold getPingableAddresses.
  pose proof (harvest_loop_spec numAddrs timeout addrs [] w) as Hspec.
  destruct (harvest_loop numAddrs timeout addrs [] w) as [r w'].
  destruct Hspec as (ps & Hps & Hout & _ & _ & Hr). simpl in *.
  exists ps. split_and!; auto. destruct r; auto. by destruct Hr as (? & ? & _).
Qed.

(** * More on main *)

Lemma build_interfaces_lookup entries name :
  build_interfaces entries !! name =
  if decide (name ∈ Name <$> entries) then Some (addresses_of name entries) else None.
Proof.
  unfold build_interfaces. rewrite build_fold_lookup, lookup_empty. simpl.
  destruct (decide (name ∈ Name <$> entries)) as [Hin|Hout].
  - destruct (addresses_of name entries) eqn:E; [|done].
    by apply addresses_of_nil in E.
  - apply addresses_of_nil in Hout. by rewrite Hout.
Qed.

Lemma addresses_of_subseteq name entries a :
  a ∈ addresses_of name entries → a ∈ Address <$> entries.
Proof.
  unfold addresses_of. intros (int & -> & Hint)%list_elem_of_fmap.
  apply list_elem_of_filter in Hint as [_ Hint]. by apply list_elem_of_fmap_2.
Qed.

Lemma ends_with_not_completed o ps :
  (match o with Replied _ => False | _ => True end) →
  ends_with o ps → ¬ Forall completed ps.
Proof.
  intros Ho (ps0 & p & -> & _ & Hp) Hall.
  apply Forall_app in Hall as [_ Hall]. rewrite Forall_singleton in Hall.
  unfold completed in Hall. rewrite Hp in Hall. by destruct o.
Qed.

Section MainMore.
Context {Net : Type} `{PingLib Net} `{NetLib}.
Implicit Types (w : World Net) (ps : list Probe).

(** Under a quota of at least one, a harvest returns at most as many
    addresses as the quota, all of them candidates of its group. *)
Lemma harvested_bound numAddresses timeout g found :
  1 ≤ numAddresses →
  harvested numAddresses timeout g found →
  Z.of_nat (length found) ≤ numAddresses.
Proof.
  intros Hq (w1 & w2 & Hrun). unfold getPingableAddresses in Hrun.
  pose proof (harvest_loop_length numAddresses timeout g.2 [] w1) as Hlen.
  rewrite Hrun in Hlen. apply Hlen. simpl. lia.
Qed.

Lemma founds_bound numAddresses timeout groups founds :
  1 ≤ numAddresses →
  Forall2 (harvested numAddresses timeout) groups founds →
  Z.of_nat (length (concat founds)) ≤ numAddresses * Z.of_nat (length groups).
Proof.
  intros Hq Hall. induction Hall as [|g found groups founds Hg _ IH]; simpl; [lia|].
  rewrite length_app. apply (harvested_bound _ _ _ _ Hq) in Hg. lia.
Qed.

(** Every probe of the harvests of [main] is a probe of a candidate of one
    of the groups, with the timeout given. *)
Lemma harvest_each_probes numAddresses timeout groups : ∀ w,
  ∃ ps,
    probes (harvest_each numAddresses timeout groups w).2 = probes w ++ ps ∧
    Forall (fun p => probe_timeout p = timeout ∧
                     ∃ g, g ∈ groups ∧ probe_addr p ∈ candidates g.2) ps.
Proof.
  induction groups as [|[name addrs] rest IH]; intros w; simpl.
  - exists []. by rewrite app_nil_r.
  - unfold bind, getPingableAddresses.
    pose proof (harvest_loop_spec numAddresses timeout addrs [] w) as Hone.
    destruct (harvest_loop numAddresses timeout addrs [] w) as [r1 w1].
    destruct Hone as (ps1 & Hps1 & _ & Hpre & Htime & _). simpl in *.
    assert (Hfirst : Forall (fun p => probe_timeout p = timeout ∧
              ∃ g, g ∈ (name, addrs) :: rest ∧ probe_addr p ∈ candidates g.2) ps1).
    { apply Forall_forall. intros p Hp. rewrite Forall_forall in Htime.
      split; [by apply Htime|]. exists (name, addrs). split; [by left|]. simpl.
      destruct Hpre as [k ->]. apply elem_of_app. left. by apply list_elem_of_fmap_2. }
    destruct r1 as [found| |code]; simpl; [|by exists ps1..].
    destruct (IH w1) as (ps2 & Hps2 & Hrest).
    destruct (harvest_each numAddresses timeout rest w1) as [[founds| |code] w2];
      simpl in *; exists (ps1 ++ ps2); rewrite app_assoc, <- Hps1;
      (split; [done|]); apply Forall_app; (split; [done|]);
      (eapply Forall_impl; [exact Hrest|]);
      intros p (Ht & g & Hg & Hp); (split; [done|]); exists g; (split; [by right|done]).
Qed.

End MainMore.

(** X8.  A name that does not resolve is the end of the process too: if
    for any probe made by [main] the pinger could not be set up, then
    [main] panicked, so the exit status is 2; the trace of the panic is the
    last thing on standard error, and nothing was written to standard
    output. *)
Theorem unresolved_name_panics_before_output {Net} `{PingLib Net} `{NetLib}
    (range_order : gmap string (list string) -> list (string * list string))
    (arpCache : ArpCache) (numAddresses timeout : Z) (w w' : World Net)
    (r : Res unit) (ps : list Probe) (p : Probe) :
  main range_order arpCache numAddresses timeout w = (r, w') →
  probes w' = probes w ++ ps →
  p ∈ ps → probe_outcome p = ResolveFailed →
  r = Panic ∧ exit_status r = 2 ∧
  stdout w' = stdout w ∧
  stderr w' = stderr (before_harvest w) ++ [PanicTrace].
Proof.
  intros Hmain Hps Hp Hfail. rewrite main_spec in Hmain. cbv zeta in Hmain.
  pose proof (harvest_each_spec numAddresses timeout
                (range_order (build_interfaces (Entries arpCache)))
                (before_harvest w)) as Hspec.
  destruct (harvest_each _ _ _ _) as [rh w1].
  destruct Hspec as (ps' & Hps' & Hout & Hr). simpl in Hps', Hout.
  assert (Hsame : probes w' = probes w1) by (destruct rh; by simplify_eq).
  assert (ps' = ps) as -> by (eapply app_inv_head; by rewrite <- Hps', <- Hsame, Hps).
  destruct rh as [founds| |code]; simplify_eq.
  - destruct Hr as (Hall & _). rewrite Forall_forall in Hall.
    specialize (Hall p Hp). unfold completed in Hall. by rewrite Hfail in Hall.
  - destruct Hr as (_ & Herr). by split_and!.
  - destruct Hr as (_ & Hend & _).
    destruct (ends_with_outcome _ _ _ Hend Hp) as [Hrep|Hres].
    + unfold completed in Hrep. by rewrite Hfail in Hrep.
    + congruence.
Qed.

Lemma unresolved_name_panics_before_output_witness :
  let arp := mkArpCache [mkInterface "ethernet1/1" "10.0.0.1";
                         mkInterface "ethernet1/1" "gone.example";
                         mkInterface "ethernet1/1" "10.0.0.3"] in
  let w := Stub.start (Stub.mkNet ["10.0.0.1"; "10.0.0.3"] ["gone.example"] true) in
  let run := @main Stub.Net Stub.lib GoNet.lib4 map_to_list arp 2 250 w in
  probe_addr <$> probes run.2 = ["10.0.0.1"; "gone.example"] ∧
  run.1 = Panic ∧ exit_status run.1 = 2 ∧
  stdout run.2 = stdout w ∧
  stderr run.2 = stderr (before_harvest w) ++ [PanicTrace].
Proof.
  split; [vm_compute; reflexivity|].
  apply (@unresolved_name_panics_before_output Stub.Net Stub.lib GoNet.lib4 map_to_list
           (mkArpCache [mkInterface "ethernet1/1" "10.0.0.1";
                        mkInterface "ethernet1/1" "gone.example";
                        mkInterface "ethernet1/1" "10.0.0.3"]) 2 250
           (Stub.start (Stub.mkNet ["10.0.0.1"; "10.0.0.3"] ["gone.example"] true)) _ _
           [mkProbe "10.0.0.1" 250 (Replied (mkStatistics 0%float));
            mkProbe "gone.example" 250 ResolveFailed]
           (mkProbe "gone.example" 250 ResolveFailed)).
  - vm_compute. reflexivity.
  - vm_compute. reflexivity.
  - right. left.
  - reflexivity.
Defined.

(** X9.  [main] returns exactly when every probe it made came to its end:
    the pinger was set up and its run returned no error and did not panic,
    whether the host answered or not (a host that stays silent does not
    stop [main]).  Then the exit status is 0, the last thing on standard
    error is the closing line, and the number of hosts it reports is the
    number of lines written to standard output.  When some probe did not
    come to its end, [main] does not return, the exit status is not 0 and
    standard output is as it was. *)
Theorem main_returns_iff_all_probes_completed {Net} `{PingLib Net} `{NetLib}
    (range_order : gmap string (list string) -> list (string * list string))
    (arpCache : ArpCache) (numAddresses timeout : Z) (w : World Net) :
  let '(r, w') := main range_order arpCache numAddresses timeout w in
  ∃ ps lines,
    probes w' = probes w ++ ps ∧ stdout w' = stdout w ++ lines ∧
    match r with
    | Ret _ =>
        Forall completed ps ∧ exit_status r = 0 ∧
        last (stderr w') = Some (Summary (length lines))
    | _ => ¬ Forall completed ps ∧ exit_status r ≠ 0 ∧ lines = []
    end.
Proof.
  rewrite main_spec. cbv zeta.
  pose proof (harvest_each_spec numAddresses timeout
                (range_order (build_interfaces (Entries arpCache)))
                (before_harvest w)) as Hspec.
  destruct (harvest_each _ _ _ _) as [rh w1].
  destruct Hspec as (ps & Hps & Hout & Hr). simpl in Hps, Hout.
  destruct rh as [founds| |code].
  - destruct Hr as (Hall & _ & _).
    exists ps, (IP_String <$> sort_hosts (concat founds)). simpl.
    rewrite Hout. split_and!; auto.
    unfold after_harvest. rewrite last_app. simpl. f_equal. f_equal.
    rewrite length_fmap. unfold sort_hosts.
    by rewrite sort_Slice_perm, length_fmap.
  - destruct Hr as ([Hend|Hend] & _); exists ps, []; rewrite app_nil_r;
      (split_and!; try done); (eapply ends_with_not_completed; [|exact Hend]); exact I.
  - destruct Hr as (-> & Hend & _). exists ps, []. rewrite app_nil_r.
    split_and!; try done. eapply ends_with_not_completed; [|exact Hend]. exact I.
Qed.

(** X10.  With a quota [N >= 1], [main] prints at most [N] lines for each
    interface: the number of lines on standard output is at most [N] times
    the number of interfaces of the map. *)
Theorem output_bounded_by_quota {Net} `{PingLib Net} `{NetLib}
    (range_order : gmap string (list string) -> list (string * list string))
    (arpCache : ArpCache) (numAddresses timeout : Z) (w : World Net) :
  admissible range_order → 1 ≤ numAddresses →
  let '(_, w') := main range_order arpCache numAddresses timeout w in
  ∃ lines, stdout w' = stdout w ++ lines ∧
    Z.of_nat (length lines)
    ≤ numAddresses * Z.of_nat (size (build_interfaces (Entries arpCache))).
Proof.
  intros Hadm Hq. rewrite main_spec. cbv zeta.
  pose proof (harvest_each_spec numAddresses timeout
                (range_order (build_interfaces (Entries arpCache)))
                (before_harvest w)) as Hspec.
  destruct (harvest_each _ _ _ _) as [rh w1].
  destruct Hspec as (ps & _ & Hout & Hr). simpl in Hout.
  destruct rh as [founds| |code]; [|exists []; rewrite app_nil_r; split; [done|simpl; lia]..].
  destruct Hr as (_ & _ & Hfounds).
  exists (IP_String <$> sort_hosts (concat founds)). simpl. rewrite Hout. split; [done|].
  rewrite length_fmap. unfold sort_hosts. rewrite sort_Slice_perm, length_fmap.
  apply (founds_bound _ _ _ _ Hq) in Hfounds.
  by rewrite (Hadm _), length_map_to_list in Hfounds.
Qed.

Lemma output_bounded_by_quota_witness :
  let arp := mkArpCache [mkInterface "ethernet1/1" "10.0.0.1";
                         mkInterface "ethernet1/1" "10.0.0.2";
                         mkInterface "ethernet1/1" "10.0.0.3";
                         mkInterface "ethernet1/2" "10.1.0.1"] in
  let w := Stub.start (Stub.mkNet ["10.0.0.1"; "10.0.0.2"; "10.0.0.3"; "10.1.0.1"] [] true) in
  let '(_, w') := @main Stub.Net Stub.lib GoNet.lib4 map_to_list arp 2 250 w in
  ∃ lines, stdout w' = stdout w ++ lines ∧
    Z.of_nat (length lines) ≤ 2 * Z.of_nat (size (build_interfaces (Entries arp))).
Proof.
  apply (@output_bounded_by_quota Stub.Net Stub.lib GoNet.lib4 map_to_list).
  - intros m. reflexivity.
  - lia.
Defined.

(** X11.  [main] probes nothing but the ARP cache: every probe it makes
    is for the address of some entry of the cache, an address whose text
    does not begin with '0', and is made with the timeout given. *)
Theorem main_probes_only_cache_addresses {Net} `{PingLib Net} `{NetLib}
    (range_order : gmap string (list string) -> list (string * list string))
    (arpCache : ArpCache) (numAddresses timeout : Z) (w : World Net) :
  admissible range_order →
  let '(_, w') := main range_order arpCache numAddresses timeout w in
  ∃ ps, probes w' = probes w ++ ps ∧
    Forall (fun p => probe_addr p ∈ Address <$> Entries arpCache ∧
                     ¬ placeholder (probe_addr p) ∧
                     probe_timeout p = timeout) ps.
Proof.
  intros Hadm. rewrite main_spec. cbv zeta.
  set (groups := range_order (build_interfaces (Entries arpCache))).
  destruct (harvest_each_probes numAddresses timeout groups (before_harvest w))
    as (ps & Hps & Hall).
  destruct (harvest_each _ _ _ _) as [rh w1]. simpl in Hps.
  enough (Forall (fun p => probe_addr p ∈ Address <$> Entries arpCache ∧
                     ¬ placeholder (probe_addr p) ∧
                     probe_timeout p = timeout) ps)
    by (destruct rh; exists ps; by split).
  eapply Forall_impl; [exact Hall|].
  intros p (Ht & g & Hg & Hp). simpl in *.
  unfold candidates in Hp. apply list_elem_of_filter in Hp as [Hph Hp].
  split_and!; auto.
  subst groups. rewrite (Hadm _) in Hg. destruct g as [name addrs].
  apply elem_of_map_to_list in Hg. rewrite build_interfaces_lookup in Hg.
  destruct (decide _); [|done]. simplify_eq. simpl in Hp.
  by eapply addresses_of_subseteq.
Qed.

Lemma main_probes_only_cache_addresses_witness :
  let arp := mkArpCache [mkInterface "ethernet1/1" "0.0.0.0";
                         mkInterface "ethernet1/1" "10.0.0.2";
                         mkInterface "ethernet1/2" "10.1.0.1"] in
  let w := Stub.start (Stub.mkNet ["10.0.0.2"] [] true) in
  let '(_, w') := @main Stub.Net Stub.lib GoNet.lib4 map_to_list arp 2 250 w in
  ∃ ps, probes w' = probes w ++ ps ∧
    Forall (fun p => probe_addr p ∈ Address <$> Entries arp ∧
                     ¬ placeholder (probe_addr p) ∧
                     probe_timeout p = 250) ps.
Proof.
  apply (@main_probes_only_cache_addresses Stub.Net Stub.lib GoNet.lib4 map_to_list).
  intros m. reflexivity.
Defined.

(** * The order of the interfaces *)

Lemma concat_Permutation_proper {A} (l1 l2 : list (list A)) :
  l1 ≡ₚ l2 → concat l1 ≡ₚ concat l2.
Proof.
  induction 1 as [|x l1 l2 _ IH|x y l|l1 l2 l3 _ IH1 _ IH2]; simpl.
  - done.
  - by rewrite IH.
  - rewrite !app_assoc. f_equiv. apply Permutation_app_comm.
  - by rewrite IH1.
Qed.

Lemma collect_Ret {A} (rs : list (Res A)) l :
  collect rs = Ret l ↔ rs = Ret <$> l.
Proof.
  revert l. induction rs as [|r rs IH]; intros l; simpl.
  - split; [by intros [= <-] | by destruct l].
  - destruct r as [a| |code]; [|split; [done | by destruct l]..].
    destruct (collect rs) as [l'| |code] eqn:E.
    + split.
      * intros [= <-]. simpl. f_equal. by apply IH.
      * destruct l as [|b l]; [done|]. intros [= <- Hrs].
        apply IH in Hrs. by simplify_eq.
    + split; [done|]. destruct l as [|b l]; [done|]. intros [= <- Hrs].
      by apply IH in Hrs.
    + split; [done|]. destruct l as [|b l]; [done|]. intros [= <- Hrs].
      by apply IH in Hrs.
Qed.

(** When all runs of a sequence return, so do all runs of a rearrangement
    of it, with the same values rearranged. *)
Lemma collect_Permutation {A} (rs1 rs2 : list (Res A)) l1 :
  rs1 ≡ₚ rs2 → collect rs1 = Ret l1 →
  ∃ l2, collect rs2 = Ret l2 ∧ l1 ≡ₚ l2.
Proof.
  intros Hperm Hret. apply collect_Ret in Hret as ->.
  symmetry in Hperm. apply Permutation_map_inv in Hperm as (l2 & -> & Hl).
  exists l2. split; [by apply collect_Ret | done].
Qed.

Section Stateless.
Context {Net : Type} `{L : PingLib Net}.
Implicit Types (w : World Net) (addrs acc : list string).

(** What [pingAddr] returns and does to the network is decided by the
    network alone. *)
Lemma pingAddr_net_only addr timeout w1 w2 :
  net w1 = net w2 →
  (pingAddr addr timeout w1).1 = (pingAddr addr timeout w2).1 ∧
  net (pingAddr addr timeout w1).2 = net (pingAddr addr timeout w2).2.
Proof.
  intros Hnet.
  unfold pingAddr, bind, call_NewPinger, call_Run, call_Statistics, log_probe.
  rewrite Hnet. destruct (NewPinger addr (net w2)) as [[] n1]; simpl; [|done].
  destruct (Run _ n1) as [[] n2]; simpl; done.
Qed.

Lemma pingAddr_stateless addr timeout w :
  stateless L → net (pingAddr addr timeout w).2 = net w.
Proof.
  intros [Hnew Hrun].
  unfold pingAddr, bind, call_NewPinger, call_Run, call_Statistics, log_probe.
  pose proof (Hnew addr (net w)) as H1.
  destruct (NewPinger addr (net w)) as [[] n1]; simpl in *; [|done].
  match goal with |- context [Run ?p n1] => pose proof (Hrun p n1) as H2;
    destruct (Run p n1) as [[] n2] end; simpl in *; congruence.
Qed.

Lemma harvest_loop_net_only numAddrs timeout addrs : ∀ acc w1 w2,
  net w1 = net w2 →
  (harvest_loop numAddrs timeout addrs acc w1).1
  = (harvest_loop numAddrs timeout addrs acc w2).1 ∧
  net (harvest_loop numAddrs timeout addrs acc w1).2
  = net (harvest_loop numAddrs timeout addrs acc w2).2.
Proof.
  induction addrs as [|addr rest IH]; intros acc w1 w2 Hnet; simpl; [done|].
  destruct (HasPrefix addr "0"); [by apply IH|].
  unfold bind.
  destruct (pingAddr_net_only addr timeout w1 w2 Hnet) as [Hres Hnet'].
  destruct (pingAddr addr timeout w1) as [r1 w1'],
           (pingAddr addr timeout w2) as [r2 w2']. simpl in *. subst r2.
  destruct r1 as [stats| |code]; try done.
  destruct (Z.of_nat _ =? numAddrs); [done|]. by apply IH.
Qed.

Lemma harvest_loop_stateless numAddrs timeout addrs : ∀ acc w,
  stateless L → net (harvest_loop numAddrs timeout addrs acc w).2 = net w.
Proof.
  induction addrs as [|addr rest IH]; intros acc w Hst; simpl; [done|].
  destruct (HasPrefix addr "0"); [by apply IH|].
  unfold bind. pose proof (pingAddr_stateless addr timeout w Hst) as Hnet.
  destruct (pingAddr addr timeout w) as [[stats| |code] w1]; try done.
  destruct (Z.of_nat _ =? numAddrs); [done|]. simpl in *. by rewrite IH.
Qed.

(** With a stateless library the harvests of [main] do not influence each
    other: each ends as it would have ended as the first. *)
Lemma harvest_each_collect numAddresses timeout groups : ∀ w w0,
  stateless L → net w = net w0 →
  (harvest_each numAddresses timeout groups w).1 =
  collect ((fun g => (getPingableAddresses g.2 numAddresses timeout w0).1) <$> groups).
Proof.
  induction groups as [|[name addrs] rest IH]; intros w w0 Hst Hnet; [done|].
  rewrite fmap_cons. cbn [harvest_each collect snd]. unfold bind.
  unfold getPingableAddresses at 1 2.
  destruct (harvest_loop_net_only numAddresses timeout addrs [] w w0 Hnet) as [<- _].
  pose proof (harvest_loop_stateless numAddresses timeout addrs [] w Hst) as Hkeep.
  destruct (harvest_loop numAddresses timeout addrs [] w) as [[found| |code] w1];
    cbn [fst snd] in *; try done.
  rewrite <- (IH w1 w0 Hst) by congruence.
  by destruct (harvest_each numAddresses timeout rest w1) as [[founds| |code] w2].
Qed.

End Stateless.

Section OrderFree.
Context {Net : Type} `{L : PingLib Net} `{NetLib}.

Lemma main_outcome range_order arpCache numAddresses timeout (w : World Net) :
  let run := harvest_each numAddresses timeout
               (range_order (build_interfaces (Entries arpCache))) (before_harvest w) in
  (main range_order arpCache numAddresses timeout w).1 = carry run.1 tt ∧
  stdout (main range_order arpCache numAddresses timeout w).2 =
    stdout w ++ match run.1 with
                | Ret founds => IP_String <$> sort_hosts (concat founds)
                | _ => []
                end.
Proof.
  cbv zeta. rewrite main_spec. cbv zeta.
  pose proof (harvest_each_spec numAddresses timeout
                (range_order (build_interfaces (Entries arpCache)))
                (before_harvest w)) as Hspec.
  destruct (harvest_each _ _ _ _) as [rh w1].
  destruct Hspec as (ps & _ & Hout & _). simpl in Hout.
  destruct rh; simpl; rewrite ?app_nil_r, Hout; done.
Qed.

Lemma sort_hosts_Permutation hosts1 hosts2 :
  hosts1 ≡ₚ hosts2 → sort_hosts hosts1 = sort_hosts hosts2.
Proof.
  intros Hperm. unfold sort_hosts. apply sort_Slice_unique.
  - rewrite sort_Slice_perm. by rewrite Hperm.
  - apply sort_Slice_sorted.
Qed.

End OrderFree.

(** X12.  Go visits the entries of a map in no fixed order, and the
    output does not depend on it.  With a stateless ping library, two runs
    of [main] that differ in the order in which the interfaces are visited
    write the same lines to standard output, in the same order, and either
    both return or neither does. *)
Theorem output_independent_of_range_order {Net} `{L : PingLib Net} `{NetLib}
    (order1 order2 : gmap string (list string) -> list (string * list string))
    (arpCache : ArpCache) (numAddresses timeout : Z) (w : World Net) :
  stateless L → admissible order1 → admissible order2 →
  stdout (main order1 arpCache numAddresses timeout w).2
  = stdout (main order2 arpCache numAddresses timeout w).2 ∧
  ((main order1 arpCache numAddresses timeout w).1 = Ret tt ↔
   (main order2 arpCache numAddresses timeout w).1 = Ret tt).
Proof.
  intros Hst Hadm1 Hadm2.
  destruct (main_outcome order1 arpCache numAddresses timeout w) as [-> ->].
  destruct (main_outcome order2 arpCache numAddresses timeout w) as [-> ->].
  set (m := build_interfaces (Entries arpCache)).
  set (o := fun g : string * list string =>
              (getPingableAddresses g.2 numAddresses timeout (before_harvest w)).1).
  rewrite !(harvest_each_collect _ _ _ _ (before_harvest w) Hst eq_refl).
  fold o.
  assert (Hperm : o <$> order1 m ≡ₚ o <$> order2 m)
    by (by rewrite (Hadm1 m), (Hadm2 m)).
  destruct (collect (o <$> order1 m)) as [l1| |code1] eqn:E1.
  - destruct (collect_Permutation _ _ _ Hperm E1) as (l2 & -> & Hl). simpl.
    split; [|done]. f_equal. f_equal.
    by apply sort_hosts_Permutation, concat_Permutation_proper.
  - destruct (collect (o <$> order2 m)) as [l2| |code2] eqn:E2; simpl;
      [|split; [done | by split]..].
    symmetry in Hperm. destruct (collect_Permutation _ _ _ Hperm E2) as (? & ? & _).
    congruence.
  - destruct (collect (o <$> order2 m)) as [l2| |code2] eqn:E2; simpl;
      [|split; [done | by split]..].
    symmetry in Hperm. destruct (collect_Permutation _ _ _ Hperm E2) as (? & ? & _).
    congruence.
Qed.

Lemma output_independent_of_range_order_witness :
  let arp := mkArpCache [mkInterface "ethernet1/1" "10.0.0.9";
                         mkInterface "ethernet1/2" "10.0.0.10";
                         mkInterface "ethernet1/3" "10.0.0.1"] in
  let w := Stub.start (Stub.mkNet ["10.0.0.9"; "10.0.0.10"; "10.0.0.1"] [] true) in
  let order2 := fun m : gmap string (list string) => reverse (map_to_list m) in
  stdout (@main Stub.Net Stub.lib GoNet.lib4 map_to_list arp 2 250 w).2
  = stdout (@main Stub.Net Stub.lib GoNet.lib4 order2 arp 2 250 w).2 ∧
  ((@main Stub.Net Stub.lib GoNet.lib4 map_to_list arp 2 250 w).1 = Ret tt ↔
   (@main Stub.Net Stub.lib GoNet.lib4 order2 arp 2 250 w).1 = Ret tt).
Proof.
  apply (@output_independent_of_range_order Stub.Net Stub.lib GoNet.lib4).
  - split; reflexivity.
  - intros m. reflexivity.
  - intros m. apply reverse_Permutation.
Defined.

(** * The pinger of a probe *)

Lemma wrap64_small z : - 2 ^ 63 ≤ z < 2 ^ 63 → wrap64 z = z.
Proof. intros Hz. unfold wrap64. rewrite Z.mod_small; lia. Qed.

(** X13.  What a probe asks of the ping library.  When the name resolves,
    [pingAddr] runs one pinger and no more: for the address it was given,
    privileged, for one packet, and, for a timeout between
    -9223372036854 and 9223372036854 milliseconds, with that timeout in
    nanoseconds, nothing lost to overflow.  When the name does not
    resolve, no pinger is run. *)
Theorem probe_runs_one_pinger {Net} (L : PingLib Net)
    (addr : string) (timeout : Z) (w : World (Net * list Pinger)) :
  -9223372036854 ≤ timeout ≤ 9223372036854 →
  (net (@pingAddr _ (recording L) addr timeout w).2).2 =
  (net w).2 ++ (if (NewPinger addr (net w).1).1
                then [mkPinger addr true (timeout * 1000000) 1]
                else []).
Proof.
  intros Hrange.
  unfold pingAddr, bind, call_NewPinger, call_Run, call_Statistics, log_probe.
  simpl. destruct (NewPinger addr (net w).1) as [[] n1]; simpl.
  - rewrite (wrap64_small timeout) by lia.
    rewrite wrap64_small by (unfold Millisecond; lia).
    by destruct (Run _ n1) as [[] n2].
  - by rewrite app_nil_r.
Qed.

Lemma probe_runs_one_pinger_witness :
  let w := mkWorld (Stub.mkNet ["10.0.0.1"] [] true, []) [] [] [] in
  (net (@pingAddr _ (recording Stub.lib) "10.0.0.1" 250 w).2).2 =
  [] ++ (if (@NewPinger _ Stub.lib "10.0.0.1" (net w).1).1
         then [mkPinger "10.0.0.1" true (250 * 1000000) 1]
         else []).
Proof.
  apply (probe_runs_one_pinger Stub.lib "10.0.0.1" 250
           (mkWorld (Stub.mkNet ["10.0.0.1"] [] true, []) [] [] [])).
  lia.
Defined.

(** * More on the grouping *)

Lemma insert_group_values (m : gmap string (list string)) name a :
  concat (map_to_list (<[name := default [] (m !! name) ++ [a]]> m)).*2
  ≡ₚ concat (map_to_list m).*2 ++ [a].
Proof.
  destruct (m !! name) as [v|] eqn:E; simpl.
  - rewrite <- insert_delete_eq.
    rewrite map_to_list_insert by apply lookup_delete_eq.
    rewrite <- (map_to_list_delete m name v E). simpl.
    rewrite <- !app_assoc. f_equiv. apply Permutation_app_comm.
  - rewrite map_to_list_insert by done. simpl. apply Permutation_cons_append.
Qed.

Lemma build_fold_values entries : ∀ m : gmap string (list string),
  concat (map_to_list
            (fold_left
               (fun interfaces int =>
                  <[Name int := default [] (interfaces !! Name int) ++ [Address int]]>
                    interfaces)
               entries m)).*2
  ≡ₚ concat (map_to_list m).*2 ++ (Address <$> entries).
Proof.
  induction entries as [|int entries IH]; intros m; simpl.
  - by rewrite app_nil_r.
  - rewrite IH, insert_group_values. by rewrite <- app_assoc.
Qed.

(** X14.  No interface of the map has an empty list: under every key
    there is at least one address. *)
Theorem no_empty_group (entries : list Interface) (name : string) :
  match build_interfaces entries !! name with
  | Some addrs => (0 < length addrs)%nat
  | None => True
  end.
Proof.
  rewrite build_interfaces_lookup.
  destruct (decide (name ∈ Name <$> entries)) as [Hin|]; [|done].
  destruct (addresses_of name entries) eqn:E; simpl; [|lia].
  by apply addresses_of_nil in E.
Qed.

(** X15.  The grouping loses nothing and adds nothing: the addresses of
    all the interfaces of the map, taken together, are the addresses of the
    entries, each as often as it occurs there. *)
Theorem grouping_keeps_every_address (entries : list Interface) :
  concat (map_to_list (build_interfaces entries)).*2 ≡ₚ Address <$> entries.
Proof.
  unfold build_interfaces. rewrite build_fold_values.
  by rewrite map_to_list_empty.
Qed.

(** * More on the order of the output *)

(** X16.  Addresses that do not parse come first.  The sorted slice of
    [main] begins with one nil address for each harvested address that
    [net.ParseIP] rejected, and no nil address stands after a parsed
    one. *)
Theorem unparsed_addresses_sort_first `{NetLib} (pingableHosts : list string) :
  ∃ rest : list IP,
    sort_hosts pingableHosts =
      replicate (length (filter (fun a => ParseIP a = []) pingableHosts)) [] ++ rest ∧
    Forall (fun ip => ip ≠ []) rest.
Proof.
  destruct (sorted_nil_first (sort_hosts pingableHosts)) as (k & rest & Hsplit & Hrest);
    [apply sort_Slice_sorted|].
  exists rest. split; [|done]. rewrite Hsplit. f_equal. f_equal.
  assert (Hcount : length (filter (fun ip : IP => ip = []) (sort_hosts pingableHosts))
                   = length (filter (fun ip : IP => ip = []) (ParseIP <$> pingableHosts))).
  { unfold sort_hosts. by rewrite sort_Slice_perm. }
  rewrite Hsplit, filter_nil_replicate, length_replicate in Hcount by done.
  rewrite Hcount. clear.
  induction pingableHosts as [|a hosts IH]; [done|].
  rewrite fmap_cons, !filter_cons.
  destruct (decide (ParseIP a = [])); simpl; by rewrite IH.
Qed.

(** X17.  The closure given to [sort.Slice] leaves no choice: two
    addresses that it does not tell apart have the same bytes.  So the
    sorted slice is the one arrangement of the parsed addresses that is in
    order, whichever way the sort reaches it, and that it is no stable
    sort is of no consequence. *)
Theorem sorted_arrangement_is_unique `{NetLib}
    (pingableHosts : list string) (sorted : list IP) :
  sorted ≡ₚ ParseIP <$> pingableHosts →
  (∀ i j a b, (i < j)%nat → sorted !! i = Some a → sorted !! j = Some b →
     ip_less b a = false) →
  sorted = sort_hosts pingableHosts.
Proof.
  intros Hperm Hordered. apply sort_Slice_unique; [done|].
  clear Hperm. induction sorted as [|a sorted IH]; constructor.
  - apply IH. intros i j x y Hij Hi Hj. by apply (Hordered (S i) (S j)); [lia|..].
  - apply Forall_forall. intros b Hb. apply list_elem_of_lookup in Hb as [j Hj].
    apply ip_le_not_less. by apply (Hordered 0%nat (S j)); [lia|..].
Qed.

Lemma sorted_arrangement_is_unique_witness :
  let hosts := ["10.0.0.2"; "10.0.0.10"; "10.0.0.1"] in
  let sorted := [@ParseIP GoNet.lib4 "10.0.0.1"; @ParseIP GoNet.lib4 "10.0.0.2";
                 @ParseIP GoNet.lib4 "10.0.0.10"] in
  sorted = @sort_hosts GoNet.lib4 hosts.
Proof.
  apply (@sorted_arrangement_is_unique GoNet.lib4).
  - simpl. apply (Permutation_cons_append [_; _]).
  - intros i j a b Hij Hi Hj.
    destruct i as [|[|[|i]]], j as [|[|[|j]]]; try lia; simpl in *; simplify_eq;
      vm_compute; reflexivity.
Defined.

(** * The start of main *)

Section StartFacts.
Context {Net : Type} `{PingLib Net} `{NetLib} `{HostLib Net}.
Implicit Types (w : World Net).


End StartFacts.

(** X18.  [getArpCache] returns one thing only: the body, read in full,
    of a response with status code 200 to the GET request for
    [https://<fw>/api/], sent with certificate checks off.  Every other
    course ends the process after a red [fail] on standard error: with the
    status of the response and exit status 1 when the code is not 200, with
    a panic otherwise.  It never writes to standard output and makes no
    probe. *)
Theorem getArpCache_returns_body_of_200 {Net} `{HostLib Net}
    (fw user pw : string) (w : World Net) :
  let url := ("https://" ++ fw ++ "/api/")%string in
  let req :=
    mkRequest "GET" url
      [("Authorization", ("Basic " ++ EncodeToString (user ++ ":" ++ pw))%string)]
      [("type", "op"); ("cmd", "<show><arp><entry name = 'all'/></arp></show>")] in
  let '(r, w') := getArpCache fw user pw w in
  probes w' = probes w ∧ stdout w' = stdout w ∧
  match r with
  | Ret data =>
      stderr w' = stderr w ∧ NewRequest "GET" url = true ∧
      ∃ resp n1 n2,
        Do (mkClient true) req (net w) = (Some resp, n1) ∧
        StatusCode resp = 200 ∧
        ReadAll resp n1 = (Some data, n2) ∧
        net w' = Close resp n2
  | Exit code =>
      code = 1 ∧
      ∃ resp n1,
        Do (mkClient true) req (net w) = (Some resp, n1) ∧
        StatusCode resp ≠ 200 ∧
        stderr w' = stderr w ++ [Red "fail\n\n"; LogFatal (Status resp)]
  | Panic => stderr w' = stderr w ++ [Red "fail\n\n"; PanicTrace]
  end.
Proof.
  cbv zeta. unfold getArpCache, bind, Eprint, panic, Fatalf, call_Do, call_ReadAll,
    call_Close, ret.
  destruct (NewRequest "GET" _) eqn:Hnew; simpl.
  2: { rewrite <- app_assoc. by split_and!. }
  destruct (Do _ _ (net w)) as [[resp|] n1] eqn:Hdo; simpl.
  2: { rewrite <- app_assoc. by split_and!. }
  destruct (StatusCode resp =? 200) eqn:Hstatus; simpl.
  2: { apply Z.eqb_neq in Hstatus. rewrite <- app_assoc.
       split_and!; try done. by exists resp, n1. }
  apply Z.eqb_eq in Hstatus.
  destruct (ReadAll resp n1) as [[data|] n2] eqn:Hread; simpl.
  - split_and!; try done. by exists resp, n1, n2.
  - rewrite <- app_assoc. by split_and!.
Qed.

Section StartSteps.
Context {Net : Type} `{PingLib Net} `{NetLib} `{HostLib Net}.
Implicit Types (w : World Net).




End StartSteps.


(** * The earlier version and the current one *)

Section Versions.
Context {Net : Type} `{PingLib Net} `{NetLib}.
Implicit Types (w : World Net).

Lemma V1_pingAddr_eq addr w : V1.pingAddr addr w = pingAddr addr 50 w.
Proof.
  unfold V1.pingAddr, pingAddr.
  by change (wrap64 (wrap64 50 * Millisecond)) with (wrap64 (50 * Millisecond)).
Qed.

Lemma V1_harvest_loop_eq numAddrs addrs : ∀ acc w,
  V1.harvest_loop numAddrs addrs acc w = harvest_loop numAddrs 50 addrs acc w.
Proof.
  induction addrs as [|addr rest IH]; intros acc w; simpl; [done|].
  destruct (HasPrefix addr "0"); [apply IH|].
  unfold bind. rewrite V1_pingAddr_eq.
  destruct (pingAddr addr 50 w) as [[stats| |code] w1]; auto.
  destruct (Z.of_nat _ =? numAddrs); auto.
Qed.

Lemma V1_harvest_all_eq numAddresses groups : ∀ hosts w,
  V1.harvest_all numAddresses groups hosts w
  = harvest_all numAddresses 50 groups hosts w.
Proof.
  induction groups as [|[name addrs] rest IH]; intros hosts w; simpl; [done|].
  unfold bind, V1.getPingableAddresses, getPingableAddresses.
  rewrite V1_harvest_loop_eq.
  destruct (harvest_loop numAddresses 50 addrs [] w) as [[found| |code] w1]; auto.
Qed.

(** What is on standard error has no part in a probe. *)
Lemma pingAddr_same addr timeout w1 w2 :
  same_but_stderr w1 w2 →
  (pingAddr addr timeout w1).1 = (pingAddr addr timeout w2).1 ∧
  same_but_stderr (pingAddr addr timeout w1).2 (pingAddr addr timeout w2).2.
Proof.
  intros (Hnet & Hprobes & Hout).
  unfold pingAddr, bind, call_NewPinger, call_Run, call_Statistics, log_probe,
    same_but_stderr.
  rewrite Hnet. destruct (NewPinger addr (net w2)) as [[] n1]; simpl.
  - destruct (Run _ n1) as [[] n2]; simpl; by rewrite Hprobes, Hout.
  - by rewrite Hprobes, Hout.
Qed.

Lemma harvest_loop_same numAddrs timeout addrs : ∀ acc w1 w2,
  same_but_stderr w1 w2 →
  (harvest_loop numAddrs timeout addrs acc w1).1
  = (harvest_loop numAddrs timeout addrs acc w2).1 ∧
  same_but_stderr (harvest_loop numAddrs timeout addrs acc w1).2
                  (harvest_loop numAddrs timeout addrs acc w2).2.
Proof.
  induction addrs as [|addr rest IH]; intros acc w1 w2 Hsame; simpl; [done|].
  destruct (HasPrefix addr "0"); [by apply IH|].
  unfold bind.
  destruct (pingAddr_same addr timeout w1 w2 Hsame) as [Hres Hsame'].
  destruct (pingAddr addr timeout w1) as [r1 w1'],
           (pingAddr addr timeout w2) as [r2 w2']. simpl in *. subst r2.
  destruct r1 as [stats| |code]; try done.
  destruct (Z.of_nat _ =? numAddrs); [done|]. by apply IH.
Qed.

Lemma harvest_each_same numAddresses timeout groups : ∀ w1 w2,
  same_but_stderr w1 w2 →
  (harvest_each numAddresses timeout groups w1).1
  = (harvest_each numAddresses timeout groups w2).1 ∧
  same_but_stderr (harvest_each numAddresses timeout groups w1).2
                  (harvest_each numAddresses timeout groups w2).2.
Proof.
  induction groups as [|[name addrs] rest IH]; intros w1 w2 Hsame; simpl; [done|].
  unfold bind, getPingableAddresses.
  destruct (harvest_loop_same numAddresses timeout addrs [] w1 w2 Hsame) as [Hres Hsame'].
  destruct (harvest_loop numAddresses timeout addrs [] w1) as [r1 w1'],
           (harvest_loop numAddresses timeout addrs [] w2) as [r2 w2']. simpl in *.
  subst r2. destruct r1 as [found| |code]; try done.
  destruct (IH w1' w2' Hsame') as [Hres2 Hsame2].
  destruct (harvest_each numAddresses timeout rest w1') as [r1 w1''],
           (harvest_each numAddresses timeout rest w2') as [r2 w2'']. simpl in *.
  subst r2. by destruct r1.
Qed.

(** The earlier [main] is its harvests, with the timeout of 50, then the
    sorted addresses on standard output. *)
Lemma V1_main_spec range_order arpCache numAddresses w :
  V1.main range_order arpCache numAddresses w =
  let groups := range_order (build_interfaces (Entries arpCache)) in
  let '(r, w1) := harvest_each numAddresses 50 groups w in
  match r with
  | Ret founds =>
      (Ret tt,
       mkWorld (net w1) (probes w1)
         (stdout w1 ++ (IP_String <$> sort_hosts (concat founds)))
         (stderr w1 ++ [Plain "\n"; Summary (length (concat founds))]))
  | Panic => (Panic, w1)
  | Exit code => (Exit code, w1)
  end.
Proof.
  unfold V1.main. cbv zeta. unfold bind at 1.
  rewrite V1_harvest_all_eq, harvest_all_each.
  destruct (harvest_each _ _ _ _) as [[founds| |code] w1]; auto.
  unfold bind, Eprint. cbn [app]. rewrite print_results_spec.
  cbn [net probes stdout stderr]. by rewrite <- app_assoc.
Qed.

End Versions.

(** X20.  The harvest of the earlier version is the harvest of the current
    one with a timeout of 50 milliseconds: the same result, the same
    probes, the same pingers, the same end. *)
Theorem earlier_harvest_is_harvest_at_50ms {Net} `{PingLib Net}
    (addrs : list string) (numAddrs : Z) (w : World Net) :
  V1.getPingableAddresses addrs numAddrs w = getPingableAddresses addrs numAddrs 50 w.
Proof.
  unfold V1.getPingableAddresses, getPingableAddresses.
  generalize (@nil string). revert w.
  induction addrs as [|addr rest IH]; intros w acc; simpl; [done|].
  destruct (HasPrefix addr "0"); [apply IH|].
  unfold bind. rewrite V1_pingAddr_eq.
  destruct (pingAddr addr 50 w) as [[stats| |code] w1]; auto.
  destruct (Z.of_nat _ =? numAddrs); auto.
Qed.


(** X21.  The earlier [main] and the current one with [-t 50] differ in
    what they report on standard error and in nothing else: from the same
    start they end the same way, after the same probes, with the same lines
    on standard output and the network in the same state. *)
Theorem earlier_main_is_main_at_50ms {Net} `{PingLib Net} `{NetLib}
    (range_order : gmap string (list string) -> list (string * list string))
    (arpCache : ArpCache) (numAddresses : Z) (w : World Net) :
  (V1.main range_order arpCache numAddresses w).1
  = (main range_order arpCache numAddresses 50 w).1 ∧
  same_but_stderr (V1.main range_order arpCache numAddresses w).2
                  (main range_order arpCache numAddresses 50 w).2.
Proof.
  rewrite V1_main_spec, main_spec. cbv zeta.
  set (groups := range_order (build_interfaces (Entries arpCache))).
  assert (Hsame : same_but_stderr w (before_harvest w)) by done.
  destruct (harvest_each_same numAddresses 50 groups w (before_harvest w) Hsame)
    as [Hres Hsame'].
  destruct (harvest_each numAddresses 50 groups w) as [r1 w1],
           (harvest_each numAddresses 50 groups (before_harvest w)) as [r2 w2].
  cbn [fst snd] in *. subst r2. destruct r1 as [founds| |code]; try done.
  destruct Hsame' as (Hnet & Hprobes & Hout). unfold same_but_stderr.
  cbn [fst snd net probes stdout]. by rewrite Hnet, Hprobes, Hout.
Qed.

(** * The whole program, run *)

(** One argument, the user named by [-u], a password typed, a firewall
    that answers 200 with a cache of three entries: the lines are those of
    [end_to_end_scenario].  The same with an answer of 403: exit status 1,
    the red [fail] and the status on standard error, and no probe. *)
Example whole_program_scenario :
  let arp := mkArpCache [mkInterface "eth0" "10.0.0.1";
                         mkInterface "eth0" "10.0.0.2";
                         mkInterface "eth1" "192.168.1.1"] in
  let icmp := Stub.mkNet ["10.0.0.2"; "192.168.1.1"] [] true in
  let fl := mkFlags "admin" 1 250 ["fw01.domain.com"] in
  let run (reply : Response) :=
    @main_whole HostStub.Net HostStub.ping GoNet.lib4 (HostStub.host (Some arp))
      map_to_list "pan-pingable-hosts" fl
      (HostStub.start (HostStub.mkNet icmp "" (Some "secret") (Some reply) (Some "<response/>"))) in
  ((run (mkResponse 200 "200 OK")).1 = Ret tt ∧
   stdout (run (mkResponse 200 "200 OK")).2 = ["10.0.0.2"; "192.168.1.1"]) ∧
  ((run (mkResponse 403 "403 Forbidden")).1 = Exit 1 ∧
   probes (run (mkResponse 403 "403 Forbidden")).2 = [] ∧
   stdout (run (mkResponse 403 "403 Forbidden")).2 = [] ∧
   stderr (run (mkResponse 403 "403 Forbidden")).2 =
     [Plain "\n"; Plain "Password (admin): "; Plain "\n\n";
      Plain "Downloading ARP cache from fw01.domain.com ... ";
      Red "fail\n\n"; LogFatal "403 Forbidden"]).
Proof. vm_compute. split_and!; reflexivity. Qed.

(** * A timeout that is not positive *)

(** With [-t 0] the timeout of the pinger is 0.  Where raw sockets may be
    opened, the run of the first pinger panics: exit status 2, nothing on
    standard output.  Where they may not, the run fails before it comes to
    the timeout: exit status 1, as with any timeout. *)
Example nonpositive_timeout_ends_the_process :
  let arp := mkArpCache [mkInterface "ethernet1/1" "10.0.0.1";
                         mkInterface "ethernet1/1" "10.0.0.2"] in
  let run (privileged : bool) :=
    @main Stub.Net Stub.lib GoNet.lib4 map_to_list arp (-1) 0
      (Stub.start (Stub.mkNet ["10.0.0.1"; "10.0.0.2"] [] privileged)) in
  ((run true).1 = Panic ∧ exit_status (run true).1 = 2 ∧
   probes (run true).2 = [mkProbe "10.0.0.1" 0 RunPanicked] ∧
   stdout (run true).2 = []) ∧
  ((run false).1 = Exit 1 ∧
   probes (run false).2 = [mkProbe "10.0.0.1" 0 RunFailed] ∧
   stdout (run false).2 = []).
Proof. vm_compute. split_and!; reflexivity. Qed.
